(** * Offline mutation queue and sync engine (client/lib/offline.ts)

    A shallow embedding of the offline queue of the accounting client:
    the durable key-value store (localforage), the identity-scoped
    read-cache keys, [enqueue], and the replay pass [processQueue] with
    its batching, backoff, failure classification and cache invalidation.

    Modelling conventions.
    - JavaScript numbers that the code only uses as integers
      ([retryCount], [createdAt], HTTP statuses, milliseconds, the
      counters) are [Z].
    - JavaScript strings are [string]; [slice], [startsWith], [includes]
      and [split] are written out below.
    - The durable store is a finite map from string keys to stored
      values; it never faults in this model.
    - The network is an oracle: the request for the item at position [n]
      of the loaded queue receives the outcome [net n] (a response with a
      status, or a thrown exception).  Inside the [try] block of the
      replay callback the only modelled source of exceptions is [fetch].
    - The callbacks of one batch run concurrently.  [Promise.all] returns
      their results in the order of the batch, and their effects on the
      counters and on the store commute, so results, counters and store
      do not depend on how the callbacks interleave.  The model runs the
      callbacks of a batch one after the other, in the order of the
      batch: that is one of the possible interleavings, not the one the
      code takes (an item that waits for its backoff is overtaken by the
      other items of its batch).  Hence the order of the events that come
      from different callbacks of one batch has no meaning, and every
      statement about the requests of a batch or of a pass is made up to
      permutation.
    - Effects on the outside world are recorded in a trace.  Its order is
      meaningful for the events of one callback, and for events separated
      by an [await] of the pass itself: the read of the queue, the start
      and the settling of each batch, the final write. *)

From Stdlib Require Import ZArith Strings.String Strings.Ascii.
From Stdlib Require Import Numbers.DecimalString Numbers.DecimalPos Numbers.DecimalZ.
From stdpp Require Import base numbers list strings gmap fin_maps.
From Equations Require Import Equations.

(** ** Strings *)

(** [s.slice(0, n)] for a non-negative [n]. *)
Fixpoint slice0 (n : nat) (s : string) : string :=
  match n, s with
  | S n', String c t => String c (slice0 n' t)
  | _, _ => EmptyString
  end.

(** [s.startsWith(p)]. *)
Definition startsWith (s p : string) : bool := String.prefix p s.

(** [s.includes(p)]: [p] occurs in [s] at some offset. *)
Fixpoint includes (s p : string) : bool :=
  String.prefix p s ||
  match s with
  | EmptyString => false
  | String _ t => includes t p
  end.

(** [s.split(sep)] for a one-character separator. *)
Fixpoint split (sep : ascii) (s : string) : list string :=
  match s with
  | EmptyString => [EmptyString]
  | String c t =>
      if Ascii.eqb c sep then EmptyString :: split sep t
      else match split sep t with
           | h :: r => String c h :: r
           | [] => [String c EmptyString]
           end
  end.

(** JavaScript truthiness of a string: the empty string is falsy. *)
Definition truthy (s : string) : bool :=
  match s with EmptyString => false | String _ _ => true end.

(** [String(n)] for an integer [n]. *)
Definition Z_to_string (n : Z) : string := NilZero.string_of_int (Z.to_int n).

(** ** Data model *)

Inductive Method := POST | PUT | DELETE.

(** The opaque request payload ([body: any]), kept as its JSON text. *)
Definition payload := string.

Record QueuedRequest := mkQueued {
  id : string;
  url : string;
  method : Method;
  headers : gmap string string;
  body : option payload;
  createdAt : Z;
  retryCount : Z
}.

(** [Omit<QueuedRequest, "id" | "createdAt" | "retryCount">]. *)
Record WriteOp := mkWriteOp {
  op_url : string;
  op_method : Method;
  op_headers : gmap string string;
  op_body : option payload
}.

(** What [fetch] is called with. *)
Record Request := mkRequest {
  rq_url : string;
  rq_method : Method;
  rq_headers : gmap string string;
  rq_body : option payload
}.

(** What the durable store holds under a key: the queue, or a cached
    read wrapped with its capture time. *)
Inductive stored :=
| SQueue (q : list QueuedRequest)
| SCache (ts : Z) (data : payload).

(** How a replay attempt ends at the transport level. *)
Inductive fetch_result :=
| Threw
| Responded (status : Z).

(** Observable effects, in the order the model performs them.  [EvBatch]
    and [EvSettled] mark the start of a batch ([batch.map]) and the point
    where its [Promise.all] has resolved. *)
Inductive event :=
| EvLoad
| EvSave (q : list QueuedRequest)
| EvBatch (k : nat)
| EvSettled (k : nat)
| EvWait (ms : Z)
| EvFetch (rq : Request)
| EvKeys
| EvRemove (key : string).

(** Reading [localStorage] may throw; the code catches it. *)
Inductive ls_state :=
| LsThrows
| LsHolds (auth_token : option string).

Record world := mkWorld {
  navigator : option bool;          (* None: [navigator] is undefined *)
  localStorage : ls_state;
  store : gmap string stored;
  trace : list event
}.

Record SyncResult := mkResult {
  r_processed : Z;
  r_failed : Z;
  r_remaining : Z
}.

Definition QUEUE_KEY : string := "offline_queue_v1".
Definition CACHE_PREFIX : string := "offline_cache_v1:".

(** ** Connectivity and cache keys *)

Definition isOnline (w : world) : bool :=
  match navigator w with
  | None => true
  | Some onLine => onLine
  end.

Definition getTokenForCache (ls : ls_state) : option string :=
  match ls with
  | LsThrows => None
  | LsHolds t => t
  end.

(** The identity fingerprint: [token ? token.slice(0, 16) : "anon"]. *)
Definition fingerprint (token : option string) : string :=
  match token with
  | Some t => if truthy t then slice0 16 t else "anon"
  | None => "anon"
  end.

Definition cacheKeyFor (ls : ls_state) (url : string) : string :=
  let token := getTokenForCache ls in
  CACHE_PREFIX +:+ "GET:" +:+ url +:+ ":t=" +:+ fingerprint token.

Definition getCached (st : gmap string stored) (key : string) : option payload :=
  match st !! key with
  | Some (SCache _ data) => Some data
  | _ => None
  end.

Definition setCached (now : Z) (key : string) (data : payload)
    (st : gmap string stored) : gmap string stored :=
  <[key := SCache now data]> st.

(** ** The durable queue *)

(** [localforage.getItem<QueuedRequest[]>(QUEUE_KEY) ?? []].  The key is
    only ever written by [saveQueue]; a value of another shape is outside
    the declared type and reads as no queue. *)
Definition loadQueue (st : gmap string stored) : list QueuedRequest :=
  match st !! QUEUE_KEY with
  | Some (SQueue q) => q
  | _ => []
  end.

Definition saveQueue (q : list QueuedRequest) (st : gmap string stored)
    : gmap string stored :=
  <[QUEUE_KEY := SQueue q]> st.

(** [enqueue(req)].  [now_id] and [now_created] are the two readings of
    [Date.now()], [rnd] is [Math.random().toString(36).slice(2)].  The
    operation is spread last, and its type has none of [id], [createdAt]
    and [retryCount]. *)
Definition new_item (now_id now_created : Z) (rnd : string) (req : WriteOp)
    : QueuedRequest :=
  {| id := Z_to_string now_id +:+ "-" +:+ rnd;
     createdAt := now_created;
     retryCount := 0;
     url := op_url req;
     method := op_method req;
     headers := op_headers req;
     body := op_body req |}.

Definition enqueue (now_id now_created : Z) (rnd : string) (req : WriteOp)
    (w : world) : world :=
  let q := loadQueue (store w) in
  let item := new_item now_id now_created rnd req in
  let q' := q ++ [item] in
  {| navigator := navigator w;
     localStorage := localStorage w;
     store := saveQueue q' (store w);
     trace := trace w ++ [EvLoad; EvSave q'] |}.

(** ** Backoff *)

(** [item.retryCount > 0 ? Math.min(1000 * Math.pow(2, item.retryCount - 1), 30000) : 0] *)
Definition backoffTime (rc : Z) : Z :=
  if (0 <? rc)%Z then Z.min (1000 * 2 ^ (rc - 1)) 30000 else 0%Z.

(** ** The pass monad

    One replay pass threads the outside world, the two counters captured
    by the callbacks ([processed], [failed]) and the number of requests
    issued so far. *)

Record pass := mkPass {
  wd : world;
  processed : Z;
  failed : Z;
  issued : nat
}.

Definition M (A : Type) : Type := pass -> A * pass.

#[global] Instance M_ret : MRet M := fun A a s => (a, s).

#[global] Instance M_bind : MBind M :=
  fun A B f m s => let '(a, s') := m s in f a s'.

(** [for (const x of xs) { await f(x) }] *)
Fixpoint forM_ {A} (f : A -> M unit) (xs : list A) : M unit :=
  match xs with
  | [] => mret tt
  | x :: xs' => f x ;; forM_ f xs'
  end.

(** [await Promise.all(xs.map(f))]: the results are collected in the
    order of [xs].  The callbacks run concurrently; what they do to the
    counters and to the store commutes (see [attempt_effects_commute]),
    and this definition performs them in the order of [xs], one of the
    interleavings.  It determines the results, the counters and the store
    the code ends with, but not the order in which the events of
    different callbacks occur: of the trace it yields, only the events of
    each callback in their own order, and the events of the whole batch
    up to permutation, are to be read. *)
Fixpoint promise_all_map {A B} (f : A -> M B) (xs : list A) : M (list B) :=
  match xs with
  | [] => mret []
  | x :: xs' => y ← f x; ys ← promise_all_map f xs'; mret (y :: ys)
  end.

Definition with_world (f : world -> world) : M unit :=
  fun s => (tt, {| wd := f (wd s); processed := processed s;
                   failed := failed s; issued := issued s |}).

Definition log (e : event) (w : world) : world :=
  {| navigator := navigator w; localStorage := localStorage w;
     store := store w; trace := trace w ++ [e] |}.

Definition with_store (f : gmap string stored -> gmap string stored)
    (w : world) : world :=
  {| navigator := navigator w; localStorage := localStorage w;
     store := f (store w); trace := trace w |}.

Definition emit (e : event) : M unit := with_world (log e).

(** [processed++] *)
Definition count_processed : M unit :=
  fun s => (tt, {| wd := wd s; processed := processed s + 1;
                   failed := failed s; issued := issued s |}).

(** [failed++] *)
Definition count_failed : M unit :=
  fun s => (tt, {| wd := wd s; processed := processed s;
                   failed := failed s + 1; issued := issued s |}).

(** [await wait(ms)] *)
Definition wait (ms : Z) : M unit := emit (EvWait ms).

(** [await fetch(...)]: the request goes out and the oracle answers. *)
Definition fetch (net : nat -> fetch_result) (rq : Request) : M fetch_result :=
  fun s => (net (issued s),
            {| wd := log (EvFetch rq) (wd s); processed := processed s;
               failed := failed s; issued := S (issued s) |}).

(** [await localforage.keys()] *)
Definition keys : M (list string) :=
  fun s => (elements (dom (store (wd s))),
            {| wd := log EvKeys (wd s); processed := processed s;
               failed := failed s; issued := issued s |}).

(** [await localforage.removeItem(key)] *)
Definition removeItem (key : string) : M unit :=
  with_world (fun w => log (EvRemove key) (with_store (delete key) w)).

Definition loadQueueM : M (list QueuedRequest) :=
  fun s => (loadQueue (store (wd s)),
            {| wd := log EvLoad (wd s); processed := processed s;
               failed := failed s; issued := issued s |}).

Definition saveQueueM (q : list QueuedRequest) : M unit :=
  with_world (fun w => log (EvSave q) (with_store (saveQueue q) w)).

(** ** The replay callback *)

(** [res.ok] *)
Definition ok (status : Z) : bool := (200 <=? status)%Z && (status <=? 299)%Z.

(** [item.retryCount += 1] *)
Definition bump (item : QueuedRequest) : QueuedRequest :=
  {| id := id item; url := url item; method := method item;
     headers := headers item; body := body item;
     createdAt := createdAt item; retryCount := retryCount item + 1 |}.

(** The options object passed to [fetch]: the item's headers override
    the default content type and the sync marker overrides both. *)
Definition request_of (item : QueuedRequest) : Request :=
  {| rq_url := url item;
     rq_method := method item;
     rq_headers :=
       <["X-Offline-Sync" := "true"]>
         (headers item ∪ {["Content-Type" := "application/json"]});
     rq_body := body item |}.

(** [urlPath.split('/').filter(Boolean)[1]] *)
Definition resourceType (urlPath : string) : option string :=
  List.filter truthy (split "/" urlPath) !! 1%nat.

(** [key.includes(resourceType) && key.startsWith(CACHE_PREFIX)] *)
Definition stale (rt key : string) : bool :=
  includes key rt && startsWith key CACHE_PREFIX.

(** The loop over [cacheKeys]. *)
Definition invalidate (rt : string) : M unit :=
  cacheKeys ← keys;
  forM_ (fun key => if stale rt key then removeItem key else mret tt) cacheKeys.

(** The retryable branch; the [catch] block has the same body.  The
    first component of the result is the item object as the callback
    leaves it, the second is what the callback returns ([None] is
    [null]). *)
Definition retry (item : QueuedRequest) : M (QueuedRequest * option QueuedRequest) :=
  let item' := bump item in
  if (retryCount item' <=? 5)%Z then mret (item', Some item')
  else count_failed ;; mret (item', None).

(** ** Classification of attempts

    The four ways an attempt can end, as the contract of the pass names
    them: success (2xx), client error (400-499), and any other failure
    (a non-2xx, non-4xx response or a thrown exception), which either
    keeps the item for the next pass or exhausts its retries. *)

Inductive outcome := Succeeded | Rejected | Kept | Exhausted.

Definition success (status : Z) : bool :=
  (200 <=? status)%Z && (status <=? 299)%Z.

Definition client_error (status : Z) : bool :=
  (400 <=? status)%Z && (status <=? 499)%Z.

Definition transient (r : fetch_result) : bool :=
  match r with
  | Threw => true
  | Responded status => negb (success status) && negb (client_error status)
  end.

Definition within_retries (item : QueuedRequest) : bool :=
  (retryCount item + 1 <=? 5)%Z.

Definition classify (r : fetch_result) (item : QueuedRequest) : outcome :=
  match r with
  | Responded status =>
      if success status then Succeeded
      else if client_error status then Rejected
      else if within_retries item then Kept else Exhausted
  | Threw => if within_retries item then Kept else Exhausted
  end.

(** A failure the contract calls transient: a thrown exception or a
    status of 500 and above. *)
Definition failed_transiently (r : fetch_result) : Prop :=
  r = Threw \/ exists status, r = Responded status /\ (500 <= status)%Z.

(** [1] for [true], [0] for [false]. *)
Definition one_if (b : bool) : Z := if b then 1%Z else 0%Z.

(** The items a pass over [q] leaves for the next pass, when the item at
    position [i] of [q] receives the outcome [net (p + i)]: those that
    failed transiently and whose incremented retry count is at most 5,
    each with its retry count incremented, in queue order. *)
Fixpoint survivors_from (net : nat -> fetch_result) (p : nat)
    (q : list QueuedRequest) : list QueuedRequest :=
  match q with
  | [] => []
  | x :: q' =>
      (if transient (net p) && within_retries x then [bump x] else []) ++
      survivors_from net (S p) q'
  end.

Definition survivors (net : nat -> fetch_result) (q : list QueuedRequest)
    : list QueuedRequest :=
  survivors_from net 0 q.

(** How many items of [q] end in an outcome selected by [sel]. *)
Fixpoint tally_from (sel : outcome -> bool) (net : nat -> fetch_result)
    (p : nat) (q : list QueuedRequest) : Z :=
  match q with
  | [] => 0
  | x :: q' =>
      ((if sel (classify (net p) x) then 1 else 0) + tally_from sel net (S p) q')%Z
  end.

Definition is_success (o : outcome) : bool :=
  match o with Succeeded => true | _ => false end.

Definition is_failure (o : outcome) : bool :=
  match o with Rejected | Exhausted => true | _ => false end.

(** ** Reading traces *)

Definition is_marker (e : event) : bool :=
  match e with EvBatch _ | EvSettled _ => true | _ => false end.

(** The requests recorded in a trace. *)
Fixpoint fetches (tr : list event) : list Request :=
  match tr with
  | [] => []
  | EvFetch rq :: tr' => rq :: fetches tr'
  | _ :: tr' => fetches tr'
  end.

(** The backoff waits recorded in a trace. *)
Fixpoint waits (tr : list event) : list Z :=
  match tr with
  | [] => []
  | EvWait ms :: tr' => ms :: waits tr'
  | _ :: tr' => waits tr'
  end.

(** No batch boundary among the events. *)
Definition quiet (evs : list event) : Prop :=
  Forall (fun e => is_marker e = false) evs.

(** The events of batch number [k]: its start, what its callbacks did,
    and the point where all of them have settled. *)
Definition batch_segment (k : nat) (body : list event) : list event :=
  EvBatch k :: body ++ [EvSettled k].

(** Batches [k], [k + 1], ... one after the other. *)
Fixpoint segments (k : nat) (bodies : list (list event)) : list event :=
  match bodies with
  | [] => []
  | body :: rest => batch_segment k body ++ segments (S k) rest
  end.

(** [body] is what the callbacks of batch [b] did: one request per item
    of [b], in some order, and no batch boundary. *)
Definition batch_ran (body : list event) (b : list QueuedRequest) : Prop :=
  quiet body /\ fetches body ≡ₚ map request_of b.

(** The store with every stale cache entry of resource type [rt] removed. *)
Definition purge (rt : string) (st : gmap string stored) : gmap string stored :=
  filter (fun kv => stale rt kv.1 = false) st.

(** ** Batching *)

Definition batchSize : nat := 3.

(** [q.slice(a, b)] for [0 <= a <= b]. *)
Definition slice {A} (a b : nat) (l : list A) : list A := take (b - a) (drop a l).

(** [for (let i = 0; i < q.length; i += batchSize) batches.push(q.slice(i, i + batchSize))],
    started at index [i]. *)
Equations? batches_from (q : list QueuedRequest) (i : nat)
    : list (list QueuedRequest) by wf (length q - i) lt :=
  batches_from q i with decide (i < length q) => {
    | left _ := slice i (i + batchSize) q :: batches_from q (i + batchSize);
    | right _ := [] }.
Proof. unfold batchSize. lia. Qed.

Definition batches (q : list QueuedRequest) : list (list QueuedRequest) :=
  batches_from q 0.

(** ** The replay engine *)

Section Engine.

(** [new URL(u, window.location.origin).pathname]: the platform's URL
    parser.  [fetch] has parsed the same string before this point, so
    the call does not throw here; with a store that does not fault, the
    [catch] block of the callback is entered from [fetch] only. *)
Variable pathname : string -> string.

Definition attempt (net : nat -> fetch_result) (item : QueuedRequest)
    : M (QueuedRequest * option QueuedRequest) :=
  let backoff := backoffTime (retryCount item) in
  (if (0 <? backoff)%Z then wait backoff else mret tt) ;;
  res ← fetch net (request_of item);
  match res with
  | Threw => retry item
  | Responded status =>
      if negb (ok status) then
        if (400 <=? status)%Z && (status <? 500)%Z
        then count_failed ;; mret (item, None)
        else retry item
      else
        count_processed ;;
        let urlPath := pathname (url item) in
        match resourceType urlPath with
        | Some rt => invalidate rt
        | None => mret tt
        end ;;
        mret (item, None)
  end.


(** What one run of the callback amounts to, as pure functions of the
    outcome [r] of its request; [attempt_eq] relates them to [attempt]. *)

Definition attempt_result (r : fetch_result) (item : QueuedRequest)
    : QueuedRequest * option QueuedRequest :=
  match classify r item with
  | Kept => (bump item, Some (bump item))
  | Exhausted => (bump item, None)
  | Succeeded | Rejected => (item, None)
  end.

Definition attempt_store (r : fetch_result) (item : QueuedRequest)
    (st : gmap string stored) : gmap string stored :=
  match classify r item, resourceType (pathname (url item)) with
  | Succeeded, Some rt => purge rt st
  | _, _ => st
  end.

Definition backoff_events (item : QueuedRequest) : list event :=
  if (0 <? backoffTime (retryCount item))%Z
  then [EvWait (backoffTime (retryCount item))] else [].

Definition purge_events (rt : string) (st : gmap string stored) : list event :=
  EvKeys :: map EvRemove (List.filter (stale rt) (elements (dom st))).

Definition attempt_events (r : fetch_result) (item : QueuedRequest)
    (st : gmap string stored) : list event :=
  backoff_events item ++ [EvFetch (request_of item)] ++
  match classify r item, resourceType (pathname (url item)) with
  | Succeeded, Some rt => purge_events rt st
  | _, _ => []
  end.

Definition attempt_processed (r : fetch_result) (item : QueuedRequest) : Z :=
  match classify r item with Succeeded => 1 | _ => 0 end.

Definition attempt_failed (r : fetch_result) (item : QueuedRequest) : Z :=
  match classify r item with Rejected | Exhausted => 1 | _ => 0 end.

(** The store after the callbacks of the items of [l] have run, the
    item at position [i] of [l] receiving the outcome [net (p + i)]. *)
Fixpoint store_after (net : nat -> fetch_result) (p : nat)
    (l : list QueuedRequest) (st : gmap string stored) : gmap string stored :=
  match l with
  | [] => st
  | x :: l' => store_after net (S p) l' (attempt_store (net p) x st)
  end.

(** ** The pass *)

(** [results.filter(Boolean)] on the callbacks' return values. *)
Definition kept (results : list (QueuedRequest * option QueuedRequest))
    : list QueuedRequest :=
  omap snd results.

(** [for (const batch of batches) { ... }], from batch number [k] on,
    with [remaining] as accumulated so far. *)
Fixpoint run_batches (net : nat -> fetch_result) (k : nat)
    (bs : list (list QueuedRequest)) (remaining : list QueuedRequest)
    : M (list QueuedRequest) :=
  match bs with
  | [] => mret remaining
  | batch :: bs' =>
      emit (EvBatch k) ;;
      results ← promise_all_map (attempt net) batch;
      emit (EvSettled k) ;;
      run_batches net (S k) bs' (remaining ++ kept results)
  end.

Definition no_op : SyncResult :=
  {| r_processed := 0; r_failed := 0; r_remaining := 0 |}.

(** [{ processed, failed, remaining: remaining.length }] *)
Definition report (remaining : list QueuedRequest) : M SyncResult :=
  fun s => ({| r_processed := processed s; r_failed := failed s;
               r_remaining := Z.of_nat (length remaining) |}, s).

(** The part of [processQueue] after the connectivity check. *)
Definition drain (net : nat -> fetch_result) : M SyncResult :=
  q ← loadQueueM;
  match q with
  | [] => mret no_op
  | _ :: _ =>
      remaining ← run_batches net 0 (batches q) [];
      saveQueueM remaining ;;
      report remaining
  end.

Definition start_pass (w : world) : pass :=
  {| wd := w; processed := 0; failed := 0; issued := 0 |}.

Definition processQueue (net : nat -> fetch_result) (w : world)
    : SyncResult * world :=
  if negb (isOnline w) then (no_op, w)
  else let '(r, s) := drain net (start_pass w) in (r, wd s).

(** Consecutive passes, one oracle per pass. *)
Definition sync_rounds (nets : list (nat -> fetch_result)) (w : world) : world :=
  foldl (fun w net => (processQueue net w).2) w nets.

End Engine.

(** ** Sample data *)

(** Two bearer tokens of the shape the identity provider issues: the
    first 36 characters encode the same signing header. *)
Definition token_alice : string := "eyJhbGciOiJIUzI1NiIsInR5cCI6IkpXVCJ9.alice".
Definition token_bob : string := "eyJhbGciOiJIUzI1NiIsInR5cCI6IkpXVCJ9.bob".

(** The URL parser on an origin-relative URL without dot segments: the
    path is what precedes the query and the fragment. *)
Fixpoint path_part (u : string) : string :=
  match u with
  | EmptyString => EmptyString
  | String c t =>
      if Ascii.eqb c "?" || Ascii.eqb c "#" then EmptyString
      else String c (path_part t)
  end.

Definition sample_item (i u : string) (rc : Z) : QueuedRequest :=
  mkQueued i u POST ∅ None 1730000000000 rc.

Definition sample_queue : list QueuedRequest :=
  [ sample_item "a" "/api/users/1" 0;
    sample_item "b" "/api/transactions/create" 5;
    sample_item "c" "/api/accounts/9" 0;
    sample_item "d" "/api/users/2?full=1" 2;
    sample_item "e" "/api/transactions/7" 1;
    sample_item "f" "/health" 0;
    sample_item "g" "/api/accounts/3" 4 ].

Definition sample_store : gmap string stored :=
  <[QUEUE_KEY := SQueue sample_queue]>
    (<["offline_cache_v1:GET:/api/users:t=anon" := SCache 1 "[]"]>
       (<["offline_cache_v1:GET:/api/fiscal-years:t=anon" := SCache 2 "[]"]> ∅)).

Definition sample_world : world :=
  mkWorld (Some true) (LsHolds None) sample_store [].

Definition offline_world : world :=
  mkWorld (Some false) (LsHolds None) sample_store [].

Definition sample_net (n : nat) : fetch_result :=
  match n with
  | 0 => Responded 200
  | 1 => Responded 503
  | 2 => Responded 404
  | 3 => Threw
  | _ => Responded 201
  end.

Definition always_throws (n : nat) : fetch_result := Threw.

Definition fresh_world : world :=
  mkWorld None (LsHolds None)
    (<[QUEUE_KEY := SQueue [sample_item "a" "/api/users/1" 0]]> ∅) [].

(** ** The credential in [localStorage] (client/services/auth.ts) *)

(** [getToken()]; [None] when the access throws. *)
Definition getToken (ls : ls_state) : option (option string) :=
  match ls with
  | LsThrows => None
  | LsHolds t => Some t
  end.

(** [setToken(token)]: a truthy token is stored, anything else removes
    the entry; [None] when the access throws. *)
Definition setToken (token : option string) (ls : ls_state) : option ls_state :=
  match ls with
  | LsThrows => None
  | LsHolds _ =>
      Some (LsHolds match token with
                    | Some t => if truthy t then Some t else None
                    | None => None
                    end)
  end.

(** ** Several calls of [enqueue] *)

(** One call of [enqueue]: the operation and what the clock and the
    random generator return during the call. *)
Record EnqueueCall := mkCall {
  c_now_id : Z;
  c_now_created : Z;
  c_rnd : string;
  c_req : WriteOp
}.

Definition item_of_call (c : EnqueueCall) : QueuedRequest :=
  new_item (c_now_id c) (c_now_created c) (c_rnd c) (c_req c).

Definition enqueue_all (cs : list EnqueueCall) (w : world) : world :=
  foldl (fun w c => enqueue (c_now_id c) (c_now_created c) (c_rnd c) (c_req c) w) w cs.

(** A network on which every request succeeds. *)
Definition always_ok (n : nat) : fetch_result := Responded 200.

Definition versioned_world : world :=
  mkWorld (Some true) (LsHolds None)
    (<[QUEUE_KEY := SQueue [sample_item "v" "/api/v1/users" 0]]>
       (<["offline_cache_v1:GET:/api/accounts:t=anon" := SCache 1 "[]"]>
          (<["theme" := SCache 2 "dark"]> ∅))) [].

(** A store without queue, online. *)
Definition empty_world : world := mkWorld (Some true) (LsHolds None) ∅ [].

(** A network that answers every request with 304. *)
Definition not_modified (n : nat) : fetch_result := Responded 304.

Definition sample_calls : list EnqueueCall :=
  [ mkCall 1730000000000 1730000000000 "k3x9q" (mkWriteOp "/api/users" POST ∅ None);
    mkCall 1730000000005 1730000000006 "p07ab" (mkWriteOp "/api/users/4" DELETE ∅ None) ].

(** ** The scheduler ([setupOfflineSync], [startOfflineSync], [stopOfflineSync])

    The module state ([started], [cleanup]), one closure per call of
    [setupOfflineSync] (its [syncInProgress] flag), and the listeners and
    interval timers registered with the window.  A call of
    [processQueue] is recorded when it is made; the pass itself runs on
    its own, and the scheduler only learns that a pass of a closure has
    settled ([finally]). *)

(** Who called [processQueue]: [startOfflineSync] itself, or
    [attemptSync] of the [i]-th closure. *)
Inductive launch := Direct | Guarded (i : nat).

Record closure := mkClosure {
  syncInProgress : bool;
  pending : nat              (* passes awaited by [attemptSync], not yet settled *)
}.

Record scheduler := mkScheduler {
  onLine : bool;             (* [navigator.onLine] *)
  started : bool;
  cleanup : option nat;      (* the closure whose teardown [cleanup] holds *)
  closures : list closure;   (* one per call of [setupOfflineSync] *)
  listeners : list nat;      (* closures whose [attemptSync] listens to 'online' *)
  intervals : list nat;      (* closures whose interval timer is active *)
  launched : list launch     (* the calls of [processQueue], oldest first *)
}.

Definition boot : scheduler :=
  mkScheduler true false None [] [] [] [].

(** [attemptSync()] of closure [i], up to its [await]. *)
Definition attemptSync (i : nat) (sc : scheduler) : scheduler :=
  match closures sc !! i with
  | Some c =>
      if syncInProgress c || negb (onLine sc) then sc
      else {| onLine := onLine sc; started := started sc; cleanup := cleanup sc;
              closures := <[i := mkClosure true (S (pending c))]> (closures sc);
              listeners := listeners sc; intervals := intervals sc;
              launched := launched sc ++ [Guarded i] |}
  | None => sc
  end.

(** The [finally] block of [attemptSync], when an awaited pass settles. *)
Definition settle (i : nat) (sc : scheduler) : scheduler :=
  match closures sc !! i with
  | Some c =>
      match pending c with
      | 0 => sc
      | S n =>
          {| onLine := onLine sc; started := started sc; cleanup := cleanup sc;
             closures := <[i := mkClosure false n]> (closures sc);
             listeners := listeners sc; intervals := intervals sc;
             launched := launched sc |}
      end
  | None => sc
  end.

(** [startOfflineSync()]: the direct call of [processQueue], then
    [setupOfflineSync()], which creates a closure and registers its
    listener and its timer. *)
Definition startOfflineSync (sc : scheduler) : scheduler :=
  if started sc then sc
  else
    let i := length (closures sc) in
    {| onLine := onLine sc; started := true; cleanup := Some i;
       closures := closures sc ++ [mkClosure false 0];
       listeners := listeners sc ++ [i];
       intervals := intervals sc ++ [i];
       launched := launched sc ++ [Direct] |}.

(** [stopOfflineSync()]: the teardown removes the listener and clears
    the timer of the closure it belongs to. *)
Definition stopOfflineSync (sc : scheduler) : scheduler :=
  if negb (started sc) then sc
  else
    match cleanup sc with
    | Some i =>
        {| onLine := onLine sc; started := false; cleanup := None;
           closures := closures sc;
           listeners := List.filter (fun j => negb (j =? i)) (listeners sc);
           intervals := List.filter (fun j => negb (j =? i)) (intervals sc);
           launched := launched sc |}
    | None =>
        {| onLine := onLine sc; started := false; cleanup := None;
           closures := closures sc; listeners := listeners sc;
           intervals := intervals sc; launched := launched sc |}
    end.

Definition set_onLine (b : bool) (sc : scheduler) : scheduler :=
  {| onLine := b; started := started sc; cleanup := cleanup sc;
     closures := closures sc; listeners := listeners sc;
     intervals := intervals sc; launched := launched sc |}.

(** What can happen to the scheduler. *)
Inductive action :=
| Start                    (* [startOfflineSync()] is called *)
| Stop                     (* [stopOfflineSync()] is called *)
| OnlineEvent              (* the browser goes online and fires 'online' *)
| OfflineEvent             (* the browser goes offline *)
| Tick (i : nat)           (* the interval timer of closure [i] fires *)
| Settled (i : nat).       (* a pass awaited by closure [i] settles *)

Definition step (sc : scheduler) (a : action) : scheduler :=
  match a with
  | Start => startOfflineSync sc
  | Stop => stopOfflineSync sc
  | OnlineEvent =>
      foldl (fun sc i => attemptSync i sc) (set_onLine true sc) (listeners sc)
  | OfflineEvent => set_onLine false sc
  | Tick i =>
      if bool_decide (i ∈ intervals sc)
      then (if onLine sc then attemptSync i sc else sc)
      else sc
  | Settled i => settle i sc
  end.

Definition run (acts : list action) : scheduler := foldl step boot acts.

Definition is_guarded (l : launch) : bool :=
  match l with Guarded _ => true | Direct => false end.

(** What the scheduler keeps true. *)
Definition registered_once (sc : scheduler) : Prop :=
  match cleanup sc with
  | Some i => started sc = true /\ listeners sc = [i] /\ intervals sc = [i]
              /\ i < length (closures sc)
  | None => started sc = false /\ listeners sc = [] /\ intervals sc = []
  end.

Definition guard_sound (sc : scheduler) : Prop :=
  Forall (fun c => pending c = if syncInProgress c then 1 else 0) (closures sc).

(** * Facts *)

(** Unfolding one step of the pass monad, and putting the resulting
    state into the shape the lemmas below use. *)
Ltac run_monad :=
  cbn;
  unfold mbind, M_bind, mret, M_ret, emit, wait, with_world, log, with_store;
  cbn.

Ltac tidy :=
  unfold log, with_store; cbn;
  rewrite ?Z.add_0_r, <- ?app_assoc, ?app_nil_r; cbn.

(** The code tests [status < 500], the contract says 400-499. *)
Lemma ltb_500 status : (status <? 500)%Z = (status <=? 499)%Z.
Proof. destruct (Z.ltb_spec status 500), (Z.leb_spec status 499); try reflexivity; lia. Qed.

(** ** Strings *)

(** What [startsWith] and [includes] decide. *)
Lemma append_inj_r (s a b : string) : s +:+ a = s +:+ b -> a = b.
Proof. induction s as [|c s IH]; cbn; [done|]. intros [= H]. auto. Qed.

Lemma prefix_spec (p s : string) :
  String.prefix p s = true <-> exists b, s = p +:+ b.
Proof.
  revert s. induction p as [|c p IH]; intros [|d s]; cbn.
  - split; [intros _; by exists EmptyString|done].
  - split; [intros _; by exists (String d s)|done].
  - split; [done|]. intros [b [=]].
  - destruct (ascii_dec c d) as [->|Hne].
    + rewrite IH. split; intros [b Hb]; exists b; cbn in *; [by rewrite Hb|by injection Hb].
    + split; [done|]. intros [b [= ? ?]]. done.
Qed.

Lemma startsWith_spec (s p : string) :
  startsWith s p = true <-> exists b, s = p +:+ b.
Proof. apply prefix_spec. Qed.

Lemma includes_spec (s p : string) :
  includes s p = true <-> exists a b, s = a +:+ p +:+ b.
Proof.
  induction s as [|c s IH]; cbn [includes].
  - rewrite orb_false_r, prefix_spec. split.
    + intros [b Hb]. by exists EmptyString, b.
    + intros (a & b & H). destruct a; cbn in H; [eauto|done].
  - rewrite orb_true_iff, prefix_spec, IH. split.
    + intros [[b Hb]|(a & b & Hab)].
      * by exists EmptyString, b.
      * exists (String c a), b. cbn. by rewrite Hab.
    + intros (a & b & H). destruct a as [|c' a]; cbn in H.
      * left. eauto.
      * right. injection H as _ H. eauto.
Qed.

(** ** Cache keys *)

(** Equal keys for the same URL come from equal fingerprints. *)
Lemma cacheKeyFor_inj ls1 ls2 url :
  cacheKeyFor ls1 url = cacheKeyFor ls2 url ->
  fingerprint (getTokenForCache ls1) = fingerprint (getTokenForCache ls2).
Proof.
  unfold cacheKeyFor. intros H.
  do 4 apply append_inj_r in H. done.
Qed.

(** C8, as stated, fails: two different credentials that agree on their
    first 16 characters obtain the same key, so a value cached under one
    is returned to the other; and the credential ["anon"] shares its key
    with the session without credential. *)
Lemma cacheKeyFor_shared_prefix_collides :
  LsHolds (Some token_alice) <> LsHolds (Some token_bob)
  /\ cacheKeyFor (LsHolds (Some token_alice)) "/api/x" =
     cacheKeyFor (LsHolds (Some token_bob)) "/api/x"
  /\ getCached
       (setCached 0 (cacheKeyFor (LsHolds (Some token_alice)) "/api/x") "alice" ∅)
       (cacheKeyFor (LsHolds (Some token_bob)) "/api/x") = Some "alice"
  /\ cacheKeyFor (LsHolds (Some "anon")) "/api/x" = cacheKeyFor (LsHolds None) "/api/x".
Proof. split_and!; [discriminate|reflexivity|vm_compute; reflexivity|reflexivity]. Qed.

(** C8 (amended): the key is the read-cache prefix, [GET:], the URL and
    [:t=] followed by the fingerprint, which is the first 16 characters
    of the credential, or [anon] when the credential is absent or empty.
    For every URL, two sessions whose fingerprints differ obtain
    different keys, and a read under one of them does not see what was
    cached under the other. *)
Theorem cacheKeyFor_scoped_by_fingerprint ls1 ls2 url now data st :
  fingerprint (getTokenForCache ls1) <> fingerprint (getTokenForCache ls2) ->
  cacheKeyFor ls1 url =
    CACHE_PREFIX +:+ "GET:" +:+ url +:+ ":t=" +:+ fingerprint (getTokenForCache ls1)
  /\ fingerprint (getTokenForCache ls1) =
       match getTokenForCache ls1 with
       | Some (String c t) => slice0 16 (String c t)
       | Some EmptyString | None => "anon"
       end
  /\ cacheKeyFor ls1 url <> cacheKeyFor ls2 url
  /\ getCached (setCached now (cacheKeyFor ls1 url) data st) (cacheKeyFor ls2 url) =
     getCached st (cacheKeyFor ls2 url).
Proof.
  intros Hfp. assert (cacheKeyFor ls1 url <> cacheKeyFor ls2 url) as Hne.
  { intros H. by apply Hfp, (cacheKeyFor_inj _ _ url). }
  split_and!; try done.
  - unfold fingerprint. by destruct (getTokenForCache ls1) as [[|c t]|].
  - unfold getCached, setCached. by rewrite lookup_insert_ne.
Qed.

Lemma cacheKeyFor_scoped_by_fingerprint_witness :
  fingerprint (Some "abc123-session-token-1") <> fingerprint None
  /\ cacheKeyFor (LsHolds (Some "abc123-session-token-1")) "/api/x" <>
     cacheKeyFor (LsHolds None) "/api/x".
Proof.
  assert (fingerprint (Some "abc123-session-token-1") <> fingerprint None) as H
    by (vm_compute; discriminate).
  split; [exact H|].
  apply (cacheKeyFor_scoped_by_fingerprint
           (LsHolds (Some "abc123-session-token-1")) (LsHolds None) "/api/x" 0 "" ∅).
  exact H.
Defined.

(** *** Identifiers

    [String(n)] is an optional sign followed by at least one digit, so
    the first dash after the digits of [`${Date.now()}-${...}`] is the
    separator: the identifier determines the clock reading and the draw
    it was built from. *)
Lemma append_cons c s t : String c s +:+ t = String c (s +:+ t).
Proof. reflexivity. Qed.

Lemma digits_dash_split d1 d2 r1 r2 :
  NilEmpty.string_of_uint d1 +:+ String "-" r1 =
  NilEmpty.string_of_uint d2 +:+ String "-" r2 ->
  d1 = d2 /\ r1 = r2.
Proof.
  revert d2.
  induction d1 as [|d1 IH|d1 IH|d1 IH|d1 IH|d1 IH|d1 IH|d1 IH|d1 IH|d1 IH|d1 IH];
    intros [|d2|d2|d2|d2|d2|d2|d2|d2|d2|d2]; cbn [NilEmpty.string_of_uint];
    rewrite ?append_cons; intros H; try discriminate H;
    injection H as H; try (by split; [done|]);
    by destruct (IH _ H) as [-> ->].
Qed.

Lemma Z_to_string_shape n :
  exists d, d <> Decimal.Nil /\
    ((Z.to_int n = Decimal.Pos d /\ Z_to_string n = NilEmpty.string_of_uint d) \/
     (Z.to_int n = Decimal.Neg d /\
      Z_to_string n = String "-" (NilEmpty.string_of_uint d))).
Proof.
  unfold Z_to_string. destruct n as [|p|p]; cbn [Z.to_int].
  - exists Decimal.zero. split; [done|]. by left.
  - exists (Pos.to_uint p). pose proof (DecimalPos.Unsigned.to_uint_nonnil p) as Hp.
    split; [done|]. left. split; [done|]. cbn.
    unfold NilZero.string_of_uint. by destruct (Pos.to_uint p).
  - exists (Pos.to_uint p). pose proof (DecimalPos.Unsigned.to_uint_nonnil p) as Hp.
    split; [done|]. right. split; [done|]. cbn.
    unfold NilZero.string_of_uint. by destruct (Pos.to_uint p).
Qed.

Lemma identifier_inj n1 r1 n2 r2 :
  Z_to_string n1 +:+ "-" +:+ r1 = Z_to_string n2 +:+ "-" +:+ r2 ->
  n1 = n2 /\ r1 = r2.
Proof.
  destruct (Z_to_string_shape n1) as (d1 & Hd1 & [[E1 ->]|[E1 ->]]),
           (Z_to_string_shape n2) as (d2 & Hd2 & [[E2 ->]|[E2 ->]]);
    change ("-" +:+ ?r) with (String "-" r); rewrite ?append_cons; intros H.
  - apply digits_dash_split in H as [-> ->]. split; [|done].
    apply DecimalZ.to_int_inj. congruence.
  - destruct d1; try done; discriminate H.
  - destruct d2; try done; discriminate H.
  - injection H as H. apply digits_dash_split in H as [-> ->]. split; [|done].
    apply DecimalZ.to_int_inj. congruence.
Qed.

(** C9, as stated, fails on the word fresh: the identifier is the clock
    reading and the random draw, and [enqueue] does not compare it with
    the identifiers already queued.  Two calls that read the same
    millisecond and draw the same number queue two different operations
    under one identifier. *)
Lemma enqueue_identifier_can_repeat :
  let w1 := enqueue 1730000000000 1730000000000 "k3x9q"
              (mkWriteOp "/api/users" POST ∅ None) empty_world in
  let w2 := enqueue 1730000000000 1730000000000 "k3x9q"
              (mkWriteOp "/api/users/4" DELETE ∅ None) w1 in
  id <$> loadQueue (store w1) = ["1730000000000-k3x9q"]
  /\ id <$> loadQueue (store w2) = ["1730000000000-k3x9q"; "1730000000000-k3x9q"]
  /\ url <$> loadQueue (store w2) = ["/api/users"; "/api/users/4"]
  /\ ~ NoDup (id <$> loadQueue (store w2)).
Proof.
  cbn zeta. split_and!; [reflexivity..|].
  change (~ NoDup ["1730000000000-k3x9q"; "1730000000000-k3x9q"]).
  intros [Hn _]%NoDup_cons. apply Hn. by left.
Qed.

(** C9 (amended): [enqueue] builds the item from the two clock readings,
    the random draw and the operation, with retry count 0; the persisted
    queue is the loaded queue followed by that item, so the items queued
    before keep their content and order; nothing else in the store
    changes; the only effects are the read and the write of the queue,
    no request is sent.  The identifier is that of another item built by
    [enqueue] exactly when both come from the same clock reading and the
    same draw.  So it is new to the queue when every queued identifier
    was built from another reading or another draw, and identifiers that
    were pairwise different stay so. *)
Theorem enqueue_appends_item_with_derived_identifier now_id now_created rnd req w :
  let q := loadQueue (store w) in
  let item := {| id := Z_to_string now_id +:+ "-" +:+ rnd; url := op_url req;
                 method := op_method req; headers := op_headers req;
                 body := op_body req; createdAt := now_created; retryCount := 0 |} in
  let w' := enqueue now_id now_created rnd req w in
  let built_elsewhere (x : QueuedRequest) :=
    exists n r, id x = Z_to_string n +:+ "-" +:+ r /\ (n <> now_id \/ r <> rnd) in
  loadQueue (store w') = q ++ [item]
  /\ store w' !! QUEUE_KEY = Some (SQueue (q ++ [item]))
  /\ take (length q) (loadQueue (store w')) = q
  /\ (forall k, k <> QUEUE_KEY -> store w' !! k = store w !! k)
  /\ trace w' = trace w ++ [EvLoad; EvSave (q ++ [item])]
  /\ fetches (drop (length (trace w)) (trace w')) = []
  /\ navigator w' = navigator w /\ localStorage w' = localStorage w
  /\ (forall n c r o, id (new_item n c r o) = id item <-> n = now_id /\ r = rnd)
  /\ (Forall built_elsewhere q -> id item ∉ id <$> q)
  /\ (Forall built_elsewhere q -> NoDup (id <$> q) ->
      NoDup (id <$> loadQueue (store w'))).
Proof.
  intros q item w' built_elsewhere.
  assert (loadQueue (store w') = q ++ [item]) as Hq.
  { subst w'. unfold enqueue, saveQueue. cbn [store].
    unfold loadQueue at 1. by rewrite lookup_insert_eq. }
  assert (Forall built_elsewhere q -> id item ∉ id <$> q) as Hfresh.
  { intros Hall (x & Hx & Hin)%list_elem_of_fmap.
    rewrite Forall_forall in Hall.
    destruct (Hall x Hin) as (n & r & Hid & Hne).
    rewrite Hid in Hx. cbn [id item] in Hx.
    apply identifier_inj in Hx as [-> ->]. by destruct Hne. }
  split_and!; try done.
  - subst w'. unfold enqueue, saveQueue. cbn [store]. by rewrite lookup_insert_eq.
  - by rewrite Hq, take_app_length.
  - intros k Hk. subst w'. unfold enqueue, saveQueue. cbn [store].
    by rewrite lookup_insert_ne.
  - subst w'. unfold enqueue. cbn [trace]. by rewrite drop_app_length.
  - intros n c r o. cbn [id new_item item]. split.
    + apply identifier_inj.
    + by intros [-> ->].
  - intros Hall Hnd. rewrite Hq, fmap_app. apply NoDup_app. split_and!.
    + done.
    + intros i Hi [->|[]%elem_of_nil]%elem_of_cons. by apply Hfresh.
    + apply NoDup_singleton.
Qed.

Section Facts.
Variable pathname : string -> string.

(** *** The invalidation loop

    The loop over the snapshot of the keys deletes the stale ones one by
    one; the store it leaves is [purge]. *)
Lemma forM_remove rt ks s :
  forM_ (fun key => if stale rt key then removeItem key else mret tt) ks s =
  (tt, {| wd := {| navigator := navigator (wd s);
                   localStorage := localStorage (wd s);
                   store := foldl (fun st k => if stale rt k then delete k st else st)
                                  (store (wd s)) ks;
                   trace := trace (wd s) ++ map EvRemove (List.filter (stale rt) ks) |};
          processed := processed s; failed := failed s; issued := issued s |}).
Proof.
  revert s. induction ks as [|k ks IH]; intros [[nav ls st tr] p f n].
  - cbn. unfold mret, M_ret. by rewrite app_nil_r.
  - run_monad. destruct (stale rt k); run_monad; rewrite IH; cbn.
    + by rewrite <- app_assoc.
    + done.
Qed.

Lemma lookup_foldl_delete rt ks (st : gmap string stored) k :
  foldl (fun st k => if stale rt k then delete k st else st) st ks !! k =
  if decide (k ∈ ks ∧ stale rt k = true) then None else st !! k.
Proof.
  revert st. induction ks as [|k' ks IH]; intros st; cbn.
  - rewrite decide_False; [done|]. intros [H _]. by apply elem_of_nil in H.
  - rewrite IH. clear IH.
    destruct (decide (k ∈ ks ∧ stale rt k = true)) as [[Hin Hs]|Hn].
    + rewrite decide_True; [done|]. split; [by right|done].
    + destruct (decide (k = k')) as [->|Hne].
      * destruct (stale rt k') eqn:Hs.
        -- rewrite lookup_delete_eq, decide_True; [done|]. split; [by left|done].
        -- rewrite decide_False; [done|]. intros [_ ?]. congruence.
      * rewrite decide_False.
        -- destruct (stale rt k'); [by rewrite lookup_delete_ne|done].
        -- intros [Hin Hs]. apply elem_of_cons in Hin as [?|?]; [done|].
           apply Hn. by split.
Qed.

Lemma purge_loop rt (st : gmap string stored) :
  foldl (fun st k => if stale rt k then delete k st else st) st (elements (dom st)) =
  purge rt st.
Proof.
  apply map_eq. intros k. rewrite lookup_foldl_delete. unfold purge.
  rewrite map_lookup_filter. case_decide as H.
  - destruct H as [_ H]. destruct (st !! k); cbn; [|done].
    rewrite option_guard_False; [done|]. cbn. congruence.
  - destruct (st !! k) eqn:Hk; cbn; [|done].
    rewrite option_guard_True; [done|]. cbn.
    destruct (stale rt k) eqn:Hs; [|done]. exfalso. apply H. split; [|done].
    apply elem_of_elements, elem_of_dom. eauto.
Qed.

Lemma lookup_purge rt (st : gmap string stored) k :
  purge rt st !! k = if stale rt k then None else st !! k.
Proof.
  unfold purge. rewrite map_lookup_filter.
  destruct (st !! k) eqn:Hk; cbn.
  - destruct (stale rt k) eqn:Hs.
    + rewrite option_guard_False; [done|]. cbn. congruence.
    + rewrite option_guard_True; done.
  - by destruct (stale rt k).
Qed.

Lemma invalidate_eq rt s :
  invalidate rt s =
  (tt, {| wd := {| navigator := navigator (wd s);
                   localStorage := localStorage (wd s);
                   store := purge rt (store (wd s));
                   trace := trace (wd s) ++ purge_events rt (store (wd s)) |};
          processed := processed s; failed := failed s; issued := issued s |}).
Proof.
  unfold invalidate. run_monad. rewrite forM_remove. cbn.
  rewrite purge_loop. unfold purge_events. by rewrite <- app_assoc.
Qed.

(** *** The callback

    One run of the callback, in closed form. *)
Lemma attempt_eq net item s :
  let r := net (issued s) in
  attempt pathname net item s =
  (attempt_result r item,
   {| wd := {| navigator := navigator (wd s);
               localStorage := localStorage (wd s);
               store := attempt_store pathname r item (store (wd s));
               trace := trace (wd s) ++ attempt_events pathname r item (store (wd s)) |};
      processed := processed s + attempt_processed r item;
      failed := failed s + attempt_failed r item;
      issued := S (issued s) |}).
Proof.
  destruct s as [[nav ls st tr] p f n]. cbn.
  unfold attempt, attempt_result, attempt_store, attempt_events,
    attempt_processed, attempt_failed, backoff_events, classify, retry,
    within_retries, ok, success, client_error.
  destruct (0 <? backoffTime (retryCount item))%Z; run_monad.
  all: destruct (net n) as [|status]; run_monad; rewrite ?ltb_500.
  all: destruct (retryCount item + 1 <=? 5)%Z; run_monad.
  all: try (destruct (200 <=? status)%Z, (status <=? 299)%Z,
              (400 <=? status)%Z, (status <=? 499)%Z; run_monad).
  all: try (destruct (resourceType (pathname (url item))); run_monad;
            rewrite ?invalidate_eq).
  all: tidy; done.
Qed.



(** *** A batch, and the batches in turn *)
Lemma survivors_from_app net p l1 l2 :
  survivors_from net p (l1 ++ l2) =
  survivors_from net p l1 ++ survivors_from net (p + length l1) l2.
Proof.
  revert p. induction l1 as [|x l1 IH]; intros p; cbn.
  - by rewrite Nat.add_0_r.
  - rewrite IH, <- app_assoc. by replace (p + S (length l1)) with (S p + length l1) by lia.
Qed.

Lemma tally_from_app sel net p l1 l2 :
  tally_from sel net p (l1 ++ l2) =
  (tally_from sel net p l1 + tally_from sel net (p + length l1) l2)%Z.
Proof.
  revert p. induction l1 as [|x l1 IH]; intros p; cbn.
  - by rewrite Nat.add_0_r.
  - rewrite IH. replace (p + S (length l1)) with (S p + length l1) by lia. lia.
Qed.

Lemma store_after_app net p l1 l2 st :
  store_after pathname net p (l1 ++ l2) st =
  store_after pathname net (p + length l1) l2 (store_after pathname net p l1 st).
Proof.
  revert p st. induction l1 as [|x l1 IH]; intros p st; cbn.
  - by rewrite Nat.add_0_r.
  - rewrite IH. by replace (p + S (length l1)) with (S p + length l1) by lia.
Qed.

Lemma classify_Kept r x :
  classify r x = Kept <-> transient r && within_retries x = true.
Proof.
  unfold classify, transient. destruct r as [|status]; cbn.
  - destruct (within_retries x); naive_solver.
  - destruct (success status), (client_error status), (within_retries x);
      naive_solver.
Qed.

Lemma kept_attempt_result r x :
  kept [attempt_result r x] =
  if transient r && within_retries x then [bump x] else [].
Proof.
  unfold attempt_result.
  destruct (transient r && within_retries x) eqn:E.
  - apply classify_Kept in E. by rewrite E.
  - destruct (classify r x) eqn:C; try done.
    apply classify_Kept in C. congruence.
Qed.

Lemma kept_cons a r : kept (a :: r) = kept [a] ++ kept r.
Proof. unfold kept. cbn. by destruct (a.2). Qed.

Lemma fetches_app t1 t2 : fetches (t1 ++ t2) = fetches t1 ++ fetches t2.
Proof.
  induction t1 as [|e t1 IH]; [done|]. destruct e; cbn; by rewrite ?IH.
Qed.

Lemma fetches_map_remove ks : fetches (map EvRemove ks) = [].
Proof. induction ks; cbn; done. Qed.

Lemma attempt_events_fetches r x st :
  fetches (attempt_events pathname r x st) = [request_of x].
Proof.
  unfold attempt_events, backoff_events, purge_events.
  rewrite !fetches_app.
  destruct (0 <? backoffTime (retryCount x))%Z; cbn;
    destruct (classify r x), (resourceType (pathname (url x))); cbn;
    by rewrite ?fetches_map_remove.
Qed.

Lemma attempt_events_quiet r x st : quiet (attempt_events pathname r x st).
Proof.
  unfold quiet, attempt_events, backoff_events, purge_events.
  rewrite !Forall_app. split_and!.
  - destruct (0 <? backoffTime (retryCount x))%Z; repeat constructor.
  - repeat constructor.
  - destruct (classify r x), (resourceType (pathname (url x)));
      try constructor; try done.
    apply Forall_fmap, Forall_forall. done.
Qed.

Lemma replay_spec net l s :
  let '(results, s') := promise_all_map (attempt pathname net) l s in
  kept results = survivors_from net (issued s) l
  /\ issued s' = issued s + length l
  /\ processed s' = (processed s + tally_from is_success net (issued s) l)%Z
  /\ failed s' = (failed s + tally_from is_failure net (issued s) l)%Z
  /\ navigator (wd s') = navigator (wd s)
  /\ localStorage (wd s') = localStorage (wd s)
  /\ store (wd s') = store_after pathname net (issued s) l (store (wd s))
  /\ exists evs, trace (wd s') = trace (wd s) ++ evs /\ quiet evs
       /\ fetches evs ≡ₚ map request_of l.
Proof.
  revert s. induction l as [|x l IH]; intros s.
  - cbn. unfold mret, M_ret. split_and!; try done; try lia.
    exists []. rewrite app_nil_r. split_and!; done || constructor.
  - cbn. unfold mbind, M_bind. rewrite attempt_eq.
    set (s1 := {| wd := _ |}). specialize (IH s1).
    destruct (promise_all_map (attempt pathname net) l s1) as [results s'].
    destruct IH as (Hk & Hi & Hp & Hf & Hn & Hl & Hst & evs & Htr & Hq & Hfe).
    subst s1.
    cbn [wd processed failed issued navigator localStorage store trace length
         survivors_from tally_from store_after map] in *.
    split_and!.
    + rewrite kept_cons, kept_attempt_result, Hk. done.
    + lia.
    + rewrite Hp. unfold attempt_processed. destruct (classify _ x); cbn; lia.
    + rewrite Hf. unfold attempt_failed. destruct (classify _ x); cbn; lia.
    + done.
    + done.
    + done.
    + eexists. split; [|split].
      * rewrite Htr, <- app_assoc. reflexivity.
      * apply Forall_app. split; [apply attempt_events_quiet|done].
      * by rewrite fetches_app, attempt_events_fetches, Hfe.
Qed.


(** *** The partition into batches *)
Lemma concat_batches_from q i : concat (batches_from q i) = drop i q.
Proof.
  funelim (batches_from q i); cbn.
  - rewrite H. unfold slice, batchSize.
    replace (i + 3 - i) with 3 by lia.
    rewrite <- (drop_drop q 3 i). apply take_drop.
  - symmetry. apply drop_ge. lia.
Qed.

Lemma batches_from_lookup q i k :
  batches_from q i !! k =
  if decide (i + 3 * k < length q)
  then Some (take 3 (drop (i + 3 * k) q)) else None.
Proof.
  revert k. funelim (batches_from q i); intros k; cbn.
  - destruct k as [|k]; cbn.
    + rewrite decide_True by lia. unfold slice, batchSize.
      by replace (i + 3 - i) with 3 by lia; rewrite Nat.add_0_r.
    + rewrite H. unfold batchSize.
      replace (i + 3 + 3 * k) with (i + 3 * S k) by lia. done.
  - rewrite decide_False by lia. done.
Qed.

Lemma ceil3_step n : 3 <= n -> (n + 2) / 3 = S ((n - 3 + 2) / 3).
Proof.
  intros Hn. replace (n + 2) with ((n - 3 + 2) + 1 * 3) at 1 by lia.
  rewrite Nat.div_add by lia. lia.
Qed.

Lemma length_batches_from q i :
  length (batches_from q i) = (length q - i + 2) / 3.
Proof.
  funelim (batches_from q i); cbn [length].
  - rewrite H. unfold batchSize.
    destruct (decide (i + 3 <= length q)).
    + rewrite (ceil3_step (length q - i)) by lia.
      by replace (length q - i - 3) with (length q - (i + 3)) by lia.
    + replace (length q - (i + 3)) with 0 by lia.
      assert (length q - i = 1 \/ length q - i = 2) as [->| ->] by lia; done.
  - replace (length q - i) with 0 by lia. done.
Qed.


(** The loop over the batches does to the counters, the store and the
    list of survivors what the callbacks do to the concatenation of the
    batches, and its trace is the sequence of the batch segments. *)
Lemma run_batches_spec net bs k rem s :
  let '(rem', s') := run_batches pathname net k bs rem s in
  rem' = rem ++ survivors_from net (issued s) (concat bs)
  /\ issued s' = issued s + length (concat bs)
  /\ processed s' = (processed s + tally_from is_success net (issued s) (concat bs))%Z
  /\ failed s' = (failed s + tally_from is_failure net (issued s) (concat bs))%Z
  /\ navigator (wd s') = navigator (wd s)
  /\ localStorage (wd s') = localStorage (wd s)
  /\ store (wd s') = store_after pathname net (issued s) (concat bs) (store (wd s))
  /\ exists bodies, trace (wd s') = trace (wd s) ++ segments k bodies
       /\ Forall2 batch_ran bodies bs.
Proof.
  revert k rem s. induction bs as [|b bs IH]; intros k rem s.
  - cbn. unfold mret, M_ret. rewrite !app_nil_r. split_and!; try done; try lia.
    exists []. cbn. rewrite app_nil_r. split; [done|constructor].
  - cbn [run_batches]. unfold mbind, M_bind, emit, with_world.
    set (s0 := {| wd := log (EvBatch k) (wd s) |}).
    pose proof (replay_spec net b s0) as Hb.
    destruct (promise_all_map (attempt pathname net) b s0) as [results s1].
    destruct Hb as (Hk & Hi & Hp & Hf & Hn & Hl & Hst & evs & Htr & Hq & Hfe).
    set (s2 := {| wd := log (EvSettled k) (wd s1) |}).
    specialize (IH (S k) (rem ++ kept results) s2).
    destruct (run_batches pathname net (S k) bs (rem ++ kept results) s2) as [rem' s'].
    destruct IH as (Hk' & Hi' & Hp' & Hf' & Hn' & Hl' & Hst' & bodies & Htr' & Hbs).
    subst s0 s2. cbn [wd processed failed issued navigator localStorage store trace log] in *.
    cbn [concat]. rewrite survivors_from_app, !tally_from_app, store_after_app, length_app.
    rewrite Hi in *. split_and!.
    + by rewrite Hk', Hk, <- app_assoc.
    + lia.
    + lia.
    + lia.
    + congruence.
    + congruence.
    + by rewrite Hst', Hst.
    + exists (evs :: bodies). split; [|by constructor].
      rewrite Htr', Htr. cbn. unfold batch_segment. cbn.
      by rewrite <- !app_assoc.
Qed.

Lemma concat_batches q : concat (batches q) = q.
Proof. unfold batches. by rewrite concat_batches_from. Qed.

(** An online pass over a non-empty queue, in closed form. *)
Lemma processQueue_online net w :
  isOnline w = true -> loadQueue (store w) <> [] ->
  let q := loadQueue (store w) in
  exists bodies,
    processQueue pathname net w =
    ({| r_processed := tally_from is_success net 0 q;
        r_failed := tally_from is_failure net 0 q;
        r_remaining := Z.of_nat (length (survivors net q)) |},
     {| navigator := navigator w; localStorage := localStorage w;
        store := saveQueue (survivors net q) (store_after pathname net 0 q (store w));
        trace := trace w ++ [EvLoad] ++ segments 0 bodies ++ [EvSave (survivors net q)] |})
    /\ Forall2 batch_ran bodies (batches q).
Proof.
  intros Hon Hne q. unfold processQueue. rewrite Hon. cbn [negb].
  unfold drain, loadQueueM, start_pass, mbind, M_bind.
  cbn [wd processed failed issued]. fold q.
  destruct q as [|x q'] eqn:Hq; [done|]. rewrite <- Hq.
  set (s0 := {| wd := log EvLoad w |}).
  pose proof (run_batches_spec net (batches q) 0 [] s0) as H.
  destruct (run_batches pathname net 0 (batches q) [] s0) as [rem s1].
  rewrite concat_batches in H.
  destruct H as (Hk & Hi & Hp & Hf & Hn & Hl & Hst & bodies & Htr & Hbs).
  subst s0. cbn [wd processed failed issued navigator localStorage store trace log] in *.
  exists bodies. split; [|done].
  unfold saveQueueM, with_world, report, log, with_store.
  cbn [wd processed failed issued navigator localStorage store trace].
  rewrite Hp, Hf, Hk, Hn, Hl, Hst, Htr. cbn [app].
  unfold survivors. rewrite !Z.add_0_l, <- !app_assoc. done.
Qed.


End Facts.

(** ** The claims about the pass *)

Section Claims.
Variable pathname : string -> string.

(** C7: when [isOnline] is false the pass returns the all-zero result and
    leaves the world as it was: the store is unchanged and the trace
    gains no event (no queue read, no request, no write). *)
Theorem processQueue_offline_no_op net w :
  isOnline w = false ->
  processQueue pathname net w =
    ({| r_processed := 0; r_failed := 0; r_remaining := 0 |}, w).
Proof. intros H. unfold processQueue. by rewrite H. Qed.

Lemma waits_map_remove ks : waits (map EvRemove ks) = [].
Proof. induction ks; cbn; done. Qed.

Lemma backoffTime_pos rc : (0 < rc)%Z -> (0 < backoffTime rc)%Z.
Proof.
  intros H. unfold backoffTime.
  destruct (Z.ltb_spec 0 rc); [|lia].
  assert (0 < 2 ^ (rc - 1))%Z by (apply Z.pow_pos_nonneg; lia). lia.
Qed.

(** C4: the wait before an attempt is 0 ms for retry count 0 and
    [min (1000 * 2^(rc - 1)) 30000] ms for a positive retry count [rc]:
    1000, 2000, 4000, 8000, 16000 ms for 1 to 5.  The callback performs
    exactly that wait right before its request, no wait when it is 0, and
    no other wait. *)
Theorem backoff_schedule net item s :
  let rc := retryCount item in
  let expected := if decide (0 < rc)%Z then Z.min (1000 * 2 ^ (rc - 1)) 30000 else 0%Z in
  backoffTime rc = expected
  /\ backoffTime 0 = 0%Z
  /\ map backoffTime [1; 2; 3; 4; 5]%Z = [1000; 2000; 4000; 8000; 16000]%Z
  /\ exists rest,
       trace (wd (attempt pathname net item s).2) =
         trace (wd s) ++ (if decide (0 < rc)%Z then [EvWait expected] else [])
                      ++ EvFetch (request_of item) :: rest
       /\ waits rest = [].
Proof.
  intros rc expected.
  assert (backoffTime rc = expected) as Hb.
  { unfold backoffTime, expected. destruct (Z.ltb_spec 0 rc);
      [by rewrite decide_True|by rewrite decide_False by lia]. }
  split_and!; [done|done|done|].
  rewrite attempt_eq. cbn [snd wd trace].
  unfold attempt_events, backoff_events. fold rc. rewrite Hb.
  assert ((if (0 <? expected)%Z then [EvWait expected] else []) =
          (if decide (0 < rc)%Z then [EvWait expected] else [])) as ->.
  { destruct (decide (0 < rc)%Z) as [Hpos|Hneg].
    - apply backoffTime_pos in Hpos. rewrite Hb in Hpos.
      destruct (Z.ltb_spec 0 expected); [done|lia].
    - by unfold expected. }
  eexists. split; [reflexivity|].
  destruct (classify (net (issued s)) item),
    (resourceType (pathname (url item))); cbn; try done.
  apply waits_map_remove.
Qed.



(** Every outcome is counted once. *)
Lemma classify_exclusive r x :
  (one_if (is_success (classify r x)) + one_if (is_failure (classify r x))
   + one_if (transient r && within_retries x) = 1)%Z.
Proof.
  destruct (transient r && within_retries x) eqn:E.
  - apply classify_Kept in E. by rewrite E.
  - destruct (classify r x) eqn:C; try done.
    apply classify_Kept in C. congruence.
Qed.

Lemma classify_exclusive_success r x :
  classify r x = Succeeded -> transient r && within_retries x = false.
Proof.
  intros H. destruct (transient r && within_retries x) eqn:E; [|done].
  apply classify_Kept in E. congruence.
Qed.

Lemma classify_exclusive_rejected r x :
  classify r x = Rejected -> transient r && within_retries x = false.
Proof.
  intros H. destruct (transient r && within_retries x) eqn:E; [|done].
  apply classify_Kept in E. congruence.
Qed.

Lemma tally_conservation net p q :
  (tally_from is_success net p q + tally_from is_failure net p q
   + Z.of_nat (length (survivors_from net p q)) = Z.of_nat (length q))%Z.
Proof.
  revert p. induction q as [|x q IH]; intros p; cbn [tally_from survivors_from length].
  - done.
  - specialize (IH (S p)). pose proof (classify_exclusive (net p) x) as H.
    unfold one_if in H. rewrite length_app.
    destruct (is_success _), (is_failure _), (transient _ && _); cbn [length] in *; lia.
Qed.

(** What a pass does to the queue, online or not. *)
Lemma processQueue_empty net w :
  isOnline w = true -> loadQueue (store w) = [] ->
  processQueue pathname net w = (no_op, log EvLoad w).
Proof.
  intros Hon Hq. unfold processQueue. rewrite Hon. cbn [negb].
  unfold drain, loadQueueM, start_pass, mbind, M_bind. cbn [wd processed failed issued].
  by rewrite Hq.
Qed.

Lemma processQueue_queue net w :
  isOnline w = true ->
  loadQueue (store (processQueue pathname net w).2) = survivors net (loadQueue (store w)).
Proof.
  intros Hon. destruct (decide (loadQueue (store w) = [])) as [Hq|Hq].
  - rewrite processQueue_empty by done. cbn. by rewrite Hq.
  - destruct (processQueue_online pathname net w Hon Hq) as (bodies & -> & _).
    cbn. unfold loadQueue at 1, saveQueue. by rewrite lookup_insert_eq.
Qed.

Lemma processQueue_navigator net w :
  navigator (processQueue pathname net w).2 = navigator w.
Proof.
  destruct (isOnline w) eqn:Hon.
  - destruct (decide (loadQueue (store w) = [])) as [Hq|Hq].
    + by rewrite processQueue_empty.
    + by destruct (processQueue_online pathname net w Hon Hq) as (bodies & -> & _).
  - unfold processQueue. by rewrite Hon.
Qed.

Lemma elem_of_survivors_from net p q y :
  y ∈ survivors_from net p q <->
  exists i x, q !! i = Some x /\ transient (net (p + i)) = true
              /\ (retryCount x + 1 <= 5)%Z /\ y = bump x.
Proof.
  revert p. induction q as [|x q IH]; intros p; cbn [survivors_from].
  - split; [by intros ?%elem_of_nil|]. by intros (i & x & ? & _).
  - rewrite elem_of_app, IH. split.
    + intros [H|(i & x' & Hi & Ht & Hr & ->)].
      * destruct (transient (net p) && within_retries x) eqn:E; [|by apply elem_of_nil in H].
        apply list_elem_of_singleton in H as ->.
        apply andb_true_iff in E as [Ht Hr]. exists 0, x.
        rewrite Nat.add_0_r. split_and!; try done. unfold within_retries in Hr. lia.
      * exists (S i), x'. split_and!; try done.
        by replace (p + S i) with (S p + i) by lia.
    + intros (i & x' & Hi & Ht & Hr & ->). destruct i as [|i]; cbn in Hi.
      * injection Hi as ->. left. rewrite Nat.add_0_r in Ht. rewrite Ht.
        unfold within_retries. destruct (Z.leb_spec (retryCount x' + 1) 5); [|lia].
        cbn. by apply list_elem_of_singleton.
      * right. exists i, x'. split_and!; try done.
        by replace (S p + i) with (p + S i) by lia.
Qed.

(** C10: after an online pass over a queue of [n] items,
    [processed + failed + remaining = n].  The three counters count the
    successes, the rejections and exhaustions, and the survivors, and
    every outcome falls under exactly one of the three. *)
Theorem processQueue_counts_every_item net w :
  isOnline w = true ->
  let q := loadQueue (store w) in
  let r := (processQueue pathname net w).1 in
  (r_processed r + r_failed r + r_remaining r = Z.of_nat (length q))%Z
  /\ r_processed r = tally_from is_success net 0 q
  /\ r_failed r = tally_from is_failure net 0 q
  /\ r_remaining r = Z.of_nat (length (survivors net q))
  /\ (forall o x,
        (one_if (is_success (classify o x)) + one_if (is_failure (classify o x))
         + one_if (transient o && within_retries x) = 1)%Z).
Proof.
  intros Hon q r.
  assert (r_processed r = tally_from is_success net 0 q
          /\ r_failed r = tally_from is_failure net 0 q
          /\ r_remaining r = Z.of_nat (length (survivors net q))) as (Hp & Hf & Hr).
  { subst r. destruct (decide (q = [])) as [Hq|Hq].
    - unfold q in *. rewrite processQueue_empty by done. rewrite Hq. done.
    - destruct (processQueue_online pathname net w Hon Hq) as (bodies & -> & _). done. }
  split_and!; try done.
  - rewrite Hp, Hf, Hr. apply tally_conservation.
  - apply classify_exclusive.
Qed.



Lemma batches_lookup q k :
  batches q !! k =
  if decide (3 * k < length q) then Some (take 3 (drop (3 * k) q)) else None.
Proof. unfold batches. by rewrite batches_from_lookup. Qed.

Lemma length_batches q : length (batches q) = (length q + 2) / 3.
Proof. unfold batches. by rewrite length_batches_from, Nat.sub_0_r. Qed.

Lemma ceil3_bounds n : 3 * ((n + 2) / 3) < n + 3 /\ n <= 3 * ((n + 2) / 3).
Proof.
  pose proof (Nat.div_mod_eq (n + 2) 3) as H.
  pose proof (Nat.mod_upper_bound (n + 2) 3) as H'. lia.
Qed.

(** C6: a non-empty queue of [n] items is cut, in order, into
    [ceil (n / 3)] consecutive batches; batch [k] is the slice starting
    at [3 * k], every batch but the last has 3 items and the last has the
    rest; 7 items give batches of sizes 3, 3, 1.  In the trace of the
    pass the batches follow one another: the events of batch [k], one
    request per item of the batch in some order, lie between its start
    and its settling, and the next batch starts after that. *)
Theorem batches_of_three_run_in_sequence net w :
  isOnline w = true -> loadQueue (store w) <> [] ->
  let q := loadQueue (store w) in
  let n := length q in
  let w' := (processQueue pathname net w).2 in
  length (batches q) = (n + 2) / 3
  /\ concat (batches q) = q
  /\ (forall k b, batches q !! k = Some b ->
        b = take 3 (drop (3 * k) q)
        /\ length b = 3 `min` (n - 3 * k) /\ 0 < length b
        /\ (S k < length (batches q) -> length b = 3))
  /\ (n = 7 -> length <$> batches q = [3; 3; 1])
  /\ exists bodies,
       Forall2 batch_ran bodies (batches q)
       /\ trace w' = trace w ++ [EvLoad] ++ segments 0 bodies
                             ++ [EvSave (survivors net q)].
Proof.
  intros Hon Hq q n w'. split_and!.
  - apply length_batches.
  - apply concat_batches.
  - intros k b Hb. rewrite batches_lookup in Hb.
    destruct (decide (3 * k < length q)) as [Hk|]; [|done].
    injection Hb as <-. rewrite length_take, length_drop. fold n.
    split_and!; try done; try lia.
    rewrite length_batches. fold n. pose proof (ceil3_bounds n). lia.
  - intros Hn. apply list_eq. intros k.
    rewrite list_lookup_fmap, batches_lookup. fold n. rewrite Hn.
    destruct k as [|[|[|k]]]; cbn [decide].
    + rewrite decide_True by lia. cbn. rewrite length_take, length_drop. fold n. by rewrite Hn.
    + rewrite decide_True by lia. cbn. rewrite length_take, length_drop. fold n. by rewrite Hn.
    + rewrite decide_True by lia. cbn. rewrite length_take, length_drop. fold n. by rewrite Hn.
    + rewrite decide_False by lia. done.
  - subst w'. destruct (processQueue_online pathname net w Hon Hq) as (bodies & -> & Hb).
    exists bodies. done.
Qed.


(** The callbacks only ever remove keys, never the queue's. *)
Lemma stale_QUEUE_KEY rt : stale rt QUEUE_KEY = false.
Proof. unfold stale. apply andb_false_r. Qed.

Lemma attempt_store_lookup_None r x (st : gmap string stored) k :
  st !! k = None -> attempt_store pathname r x st !! k = None.
Proof.
  intros H. unfold attempt_store.
  destruct (classify r x), (resourceType (pathname (url x))); try done.
  rewrite lookup_purge. by destruct (stale _ k).
Qed.

Lemma store_after_lookup_None net p l (st : gmap string stored) k :
  st !! k = None -> store_after pathname net p l st !! k = None.
Proof.
  revert p st. induction l as [|x l IH]; intros p st H; cbn; [done|].
  by apply IH, attempt_store_lookup_None.
Qed.

Lemma store_after_purged net p l (st : gmap string stored) i x rt k :
  l !! i = Some x -> classify (net (p + i)) x = Succeeded ->
  resourceType (pathname (url x)) = Some rt -> stale rt k = true ->
  store_after pathname net p l st !! k = None.
Proof.
  revert p st i. induction l as [|x' l IH]; intros p st i Hi Hc Hrt Hs; [done|].
  destruct i as [|i]; cbn in *.
  - injection Hi as ->. rewrite Nat.add_0_r in Hc.
    apply store_after_lookup_None. unfold attempt_store.
    by rewrite Hc, Hrt, lookup_purge, Hs.
  - apply (IH (S p) _ i); try done.
    by replace (S p + i) with (p + S i) by lia.
Qed.

(** The share of one position in the outcome of the pass. *)
Lemma survivors_split net q i x :
  q !! i = Some x ->
  survivors net q =
    survivors_from net 0 (take i q)
    ++ (if transient (net i) && within_retries x then [bump x] else [])
    ++ survivors_from net (S i) (drop (S i) q).
Proof.
  intros Hi. unfold survivors.
  rewrite <- (take_drop_middle q i x Hi) at 1.
  rewrite survivors_from_app. cbn [survivors_from].
  apply lookup_lt_Some in Hi as Hlt.
  rewrite length_take, Nat.min_l by lia. done.
Qed.

Lemma tally_split sel net q i x :
  q !! i = Some x ->
  tally_from sel net 0 q =
    (tally_from sel net 0 (take i q) + (if sel (classify (net i) x) then 1 else 0)
     + tally_from sel net (S i) (drop (S i) q))%Z.
Proof.
  intros Hi.
  rewrite <- (take_drop_middle q i x Hi) at 1.
  rewrite tally_from_app. cbn [tally_from].
  apply lookup_lt_Some in Hi as Hlt.
  rewrite length_take, Nat.min_l by lia. cbn. lia.
Qed.

Lemma classify_success status x :
  (200 <= status <= 299)%Z -> classify (Responded status) x = Succeeded.
Proof.
  intros H. unfold classify, success.
  destruct (Z.leb_spec 200 status), (Z.leb_spec status 299); try lia. done.
Qed.

Lemma classify_client_error status x :
  (400 <= status <= 499)%Z -> classify (Responded status) x = Rejected.
Proof.
  intros H. unfold classify, success, client_error.
  destruct (Z.leb_spec 200 status), (Z.leb_spec status 299),
    (Z.leb_spec 400 status), (Z.leb_spec status 499); try lia; done.
Qed.

(** C5: when the request of the item at position [i] is answered with a
    2xx status, the callback increments [processed] only, returns [null]
    with the item untouched, and, with the resource type being the
    second non-empty segment of the URL path, removes from the store
    exactly the keys that contain it and start with the read-cache
    prefix; without a second segment the store is unchanged.  At the end
    of the pass those keys are absent, the item is not in the persisted
    queue and it counts once in [processed]. *)
Theorem success_invalidates_cache net w i item status s :
  isOnline w = true ->
  loadQueue (store w) !! i = Some item ->
  net i = Responded status -> (200 <= status <= 299)%Z ->
  issued s = i ->
  let q := loadQueue (store w) in
  let token := resourceType (pathname (url item)) in
  let res := (attempt pathname net item s).1 in
  let s' := (attempt pathname net item s).2 in
  let r := (processQueue pathname net w).1 in
  let w' := (processQueue pathname net w).2 in
  processed s' = (processed s + 1)%Z /\ failed s' = failed s
  /\ res = (item, None)
  /\ match token with
     | Some rt =>
         forall key, store (wd s') !! key =
           if includes key rt && startsWith key CACHE_PREFIX then None
           else store (wd s) !! key
     | None => store (wd s') = store (wd s)
     end
  /\ (forall rt key, token = Some rt ->
        includes key rt = true -> startsWith key CACHE_PREFIX = true ->
        store w' !! key = None)
  /\ loadQueue (store w') =
       survivors_from net 0 (take i q) ++ survivors_from net (S i) (drop (S i) q)
  /\ r_processed r =
       (tally_from is_success net 0 (take i q) + 1
        + tally_from is_success net (S i) (drop (S i) q))%Z
  /\ resourceType "/api/users/42" = Some "users"
  /\ resourceType "/api" = None.
Proof.
  intros Hon Hi Hnet Hst Hs q token res s' r w'. subst res s' r w'.
  assert (classify (net i) item = Succeeded) as Hc
    by (rewrite Hnet; by apply classify_success).
  rewrite attempt_eq, Hs.
  assert (loadQueue (store w) <> []) as Hq by (intros E; by rewrite E in Hi).
  destruct (processQueue_online pathname net w Hon Hq) as (bodies & -> & _).
  fold q. cbn [fst snd wd processed failed store r_processed].
  unfold attempt_processed, attempt_failed, attempt_result, attempt_store.
  rewrite Hc.
  split_and!; try done.
  - lia.
  - subst token. destruct (resourceType (pathname (url item))) as [rt|]; [|done].
    intros key. apply lookup_purge.
  - intros rt key Htok Hinc Hpre. unfold saveQueue.
    assert (stale rt key = true) as Hstale by (unfold stale; by rewrite Hinc, Hpre).
    rewrite lookup_insert_ne.
    + apply (store_after_purged net 0 q _ i item rt); done.
    + intros <-. by rewrite stale_QUEUE_KEY in Hstale.
  - unfold loadQueue at 1, saveQueue. rewrite lookup_insert_eq.
    rewrite (survivors_split net q i item Hi).
    apply classify_exclusive_success in Hc. by rewrite Hc.
  - rewrite (tally_split is_success net q i item Hi), Hc. done.
Qed.


(** Every item of a later queue stems from an item of an earlier one
    with the same identifier. *)
Lemma survivors_from_origin net p l y :
  y ∈ survivors_from net p l -> exists x, x ∈ l /\ id y = id x.
Proof.
  rewrite elem_of_survivors_from. intros (i & x & Hi & _ & _ & ->).
  exists x. split; [|done]. apply list_elem_of_lookup. eauto.
Qed.

Lemma processQueue_origin net w y :
  y ∈ loadQueue (store (processQueue pathname net w).2) ->
  exists x, x ∈ loadQueue (store w) /\ id y = id x.
Proof.
  destruct (isOnline w) eqn:Hon.
  - rewrite processQueue_queue by done. apply survivors_from_origin.
  - unfold processQueue. rewrite Hon. cbn. eauto.
Qed.

Lemma sync_rounds_origin nets w y :
  y ∈ loadQueue (store (sync_rounds pathname nets w)) ->
  exists x, x ∈ loadQueue (store w) /\ id y = id x.
Proof.
  revert w. induction nets as [|net nets IH]; intros w; cbn.
  - eauto.
  - intros H. apply IH in H as (x & Hx & ->).
    apply processQueue_origin in Hx as (x' & Hx' & ->). eauto.
Qed.

Lemma unique_id_elsewhere (q : list QueuedRequest) i item x :
  NoDup (id <$> q) -> q !! i = Some item ->
  x ∈ take i q ++ drop (S i) q -> id x <> id item.
Proof.
  intros Hnd Hi Hx Heq.
  assert ((id <$> q) !! i = Some (id item)) as Hi' by (by rewrite list_lookup_fmap, Hi).
  apply elem_of_app in Hx as [Hx|Hx]; apply list_elem_of_lookup in Hx as [j Hj].
  - apply lookup_take_Some in Hj as [Hj Hlt].
    assert ((id <$> q) !! j = Some (id item)) as Hj'
      by (by rewrite list_lookup_fmap, Hj; cbn; rewrite Heq).
    pose proof (NoDup_lookup _ _ _ _ Hnd Hi' Hj'). lia.
  - rewrite lookup_drop in Hj.
    assert ((id <$> q) !! (S i + j) = Some (id item)) as Hj'
      by (by rewrite list_lookup_fmap, Hj; cbn; rewrite Heq).
    pose proof (NoDup_lookup _ _ _ _ Hnd Hi' Hj'). lia.
Qed.

(** C3: when the request of the item at position [i] is answered with a
    status from 400 to 499, whatever the item's retry count, the callback
    increments [failed] only, sends that one request, leaves the item's
    retry count as it was and returns [null].  The persisted queue holds
    the survivors of the other positions only, the item counts once in
    [failed], and when identifiers are unique no later pass finds an item
    with its identifier. *)
Theorem client_error_drops_without_retry net w i item status s :
  isOnline w = true ->
  loadQueue (store w) !! i = Some item ->
  net i = Responded status -> (400 <= status <= 499)%Z ->
  issued s = i ->
  let q := loadQueue (store w) in
  let res := (attempt pathname net item s).1 in
  let s' := (attempt pathname net item s).2 in
  let r := (processQueue pathname net w).1 in
  let w' := (processQueue pathname net w).2 in
  res = (item, None)
  /\ failed s' = (failed s + 1)%Z /\ processed s' = processed s
  /\ store (wd s') = store (wd s)
  /\ fetches (drop (length (trace (wd s))) (trace (wd s'))) = [request_of item]
  /\ loadQueue (store w') =
       survivors_from net 0 (take i q) ++ survivors_from net (S i) (drop (S i) q)
  /\ r_failed r =
       (tally_from is_failure net 0 (take i q) + 1
        + tally_from is_failure net (S i) (drop (S i) q))%Z
  /\ (NoDup (id <$> q) ->
      forall nets y, y ∈ loadQueue (store (sync_rounds pathname nets w')) ->
                     id y <> id item).
Proof.
  intros Hon Hi Hnet Hst Hs q res s' r w'. subst res s' r w'.
  assert (classify (net i) item = Rejected) as Hc
    by (rewrite Hnet; by apply classify_client_error).
  rewrite attempt_eq, Hs.
  assert (loadQueue (store w) <> []) as Hq by (intros E; by rewrite E in Hi).
  destruct (processQueue_online pathname net w Hon Hq) as (bodies & -> & _).
  fold q. cbn [fst snd wd processed failed store trace r_failed].
  unfold attempt_processed, attempt_failed, attempt_result, attempt_store.
  rewrite Hc.
  assert (loadQueue (saveQueue (survivors net q) (store_after pathname net 0 q (store w))) =
          survivors_from net 0 (take i q) ++ survivors_from net (S i) (drop (S i) q)) as Hl.
  { unfold loadQueue at 1, saveQueue. rewrite lookup_insert_eq.
    rewrite (survivors_split net q i item Hi).
    apply classify_exclusive_rejected in Hc. by rewrite Hc. }
  split_and!; try done.
  - lia.
  - rewrite drop_app_length. apply attempt_events_fetches.
  - rewrite (tally_split is_failure net q i item Hi), Hc. done.
  - intros Hnd nets y Hy.
    apply sync_rounds_origin in Hy as (x & Hx & ->). cbn [store] in Hx.
    rewrite Hl in Hx.
    assert (exists x', x' ∈ take i q ++ drop (S i) q /\ id x = id x') as (x' & Hx' & ->).
    { apply elem_of_app in Hx as [Hx|Hx];
        apply survivors_from_origin in Hx as (x' & Hx' & Hid);
        exists x'; (split; [apply elem_of_app; auto|done]). }
    by apply (unique_id_elsewhere q i).
Qed.



(** Consecutive passes. *)
Lemma failed_transiently_transient r : failed_transiently r -> transient r = true.
Proof.
  intros [->|(status & -> & H)]; [done|].
  unfold transient, success, client_error.
  destruct (Z.leb_spec status 299), (Z.leb_spec status 499); try lia.
  all: by rewrite ?andb_false_r.
Qed.

Lemma classify_transient r x :
  transient r = true ->
  classify r x = if decide (retryCount x + 1 <= 5)%Z then Kept else Exhausted.
Proof.
  intros Ht. unfold classify, within_retries, transient in *.
  destruct (Z.leb_spec (retryCount x + 1) 5);
    [rewrite decide_True by done|rewrite decide_False by lia].
  all: destruct r as [|status]; [done|].
  all: destruct (success status); [done|]; by destruct (client_error status).
Qed.

Lemma sync_rounds_snoc nets net w :
  sync_rounds pathname (nets ++ [net]) w =
  (processQueue pathname net (sync_rounds pathname nets w)).2.
Proof. unfold sync_rounds. by rewrite foldl_app. Qed.

Lemma sync_rounds_online nets w :
  isOnline w = true -> isOnline (sync_rounds pathname nets w) = true.
Proof.
  revert w. induction nets as [|net nets IH]; intros w H; cbn; [done|].
  apply IH. unfold isOnline in *. by rewrite processQueue_navigator.
Qed.

Lemma survivors_capped net p q y :
  y ∈ survivors_from net p q -> (retryCount y <= 5)%Z.
Proof.
  rewrite elem_of_survivors_from. intros (i & x & _ & _ & H & ->). cbn. lia.
Qed.

Lemma sync_rounds_aged i0 nets w (k : Z) :
  isOnline w = true ->
  (forall y, y ∈ loadQueue (store w) -> id y = i0 -> (k <= retryCount y)%Z) ->
  forall y, y ∈ loadQueue (store (sync_rounds pathname nets w)) -> id y = i0 ->
    (k + Z.of_nat (length nets) <= retryCount y)%Z.
Proof.
  revert w k. induction nets as [|net nets IH]; intros w k Hon Hk y Hy Hid;
    cbn [sync_rounds foldl length] in *.
  - cbn. rewrite Z.add_0_r. by apply Hk.
  - replace (k + Z.of_nat (S (length nets)))%Z
      with ((k + 1) + Z.of_nat (length nets))%Z by lia.
    apply (IH (processQueue pathname net w).2); try done.
    + unfold isOnline in *. by rewrite processQueue_navigator.
    + intros y'. rewrite processQueue_queue by done. unfold survivors.
      rewrite elem_of_survivors_from. intros (i & x & Hi & _ & _ & ->) Hid'.
      cbn in *. assert (k <= retryCount x)%Z; [|lia].
      apply Hk; [|done]. apply list_elem_of_lookup. eauto.
Qed.

Lemma sync_rounds_capped nets w y :
  isOnline w = true -> nets <> [] ->
  y ∈ loadQueue (store (sync_rounds pathname nets w)) -> (retryCount y <= 5)%Z.
Proof.
  intros Hon Hne. destruct nets as [|net nets _] using rev_ind; [done|].
  rewrite sync_rounds_snoc, processQueue_queue by (by apply sync_rounds_online).
  apply survivors_capped.
Qed.

Lemma iter_bump k x :
  id (Nat.iter k bump x) = id x
  /\ retryCount (Nat.iter k bump x) = (retryCount x + Z.of_nat k)%Z.
Proof.
  induction k as [|k [IH1 IH2]].
  - cbn. split; [done|lia].
  - rewrite Nat.iter_succ. cbn [id retryCount bump]. split; [done|]. rewrite IH2. lia.
Qed.

(** C2: when an attempt ends in a status of 500 or above or in a thrown
    exception, the callback increments the item's retry count by one;
    if the new count is at most 5 it returns the item, otherwise it
    increments [failed] and returns [null].  Across consecutive online
    passes in which the items carrying identifier [i0] fail that way, such
    an item stays queued, with its count incremented each time, as long
    as the count does not exceed 5, and after six passes no item with
    that identifier is in the queue, however many passes follow. *)
Theorem transient_failure_retries_then_drops net item s nets w i0 :
  failed_transiently (net (issued s)) ->
  isOnline w = true ->
  6 <= length nets ->
  (forall y, y ∈ loadQueue (store w) -> id y = i0 -> (0 <= retryCount y)%Z) ->
  (forall k net_k p y,
     k < 6 -> nets !! k = Some net_k ->
     loadQueue (store (sync_rounds pathname (take k nets) w)) !! p = Some y ->
     id y = i0 -> failed_transiently (net_k p)) ->
  let rc' := (retryCount item + 1)%Z in
  let res := (attempt pathname net item s).1 in
  let s' := (attempt pathname net item s).2 in
  res = (bump item, if decide (rc' <= 5)%Z then Some (bump item) else None)
  /\ retryCount (bump item) = rc'
  /\ failed s' = (failed s + if decide (rc' <= 5)%Z then 0 else 1)%Z
  /\ processed s' = processed s
  /\ store (wd s') = store (wd s)
  /\ (forall k x,
        k <= 6 -> x ∈ loadQueue (store w) -> id x = i0 ->
        (retryCount x + Z.of_nat k <= 5)%Z ->
        Nat.iter k bump x ∈ loadQueue (store (sync_rounds pathname (take k nets) w)))
  /\ (forall y, y ∈ loadQueue (store (sync_rounds pathname nets w)) -> id y <> i0).
Proof.
  intros Hnet Hon Hlen Hrc Htr rc' res s'. subst res s'.
  apply failed_transiently_transient in Hnet.
  rewrite attempt_eq. cbn [fst snd wd processed failed store].
  unfold attempt_processed, attempt_failed, attempt_result, attempt_store.
  rewrite (classify_transient _ item Hnet). fold rc'.
  split_and!.
  - by destruct (decide (rc' <= 5)%Z).
  - done.
  - by destruct (decide (rc' <= 5)%Z).
  - destruct (decide (rc' <= 5)%Z); lia.
  - by destruct (decide (rc' <= 5)%Z).
  - intros k. induction k as [|k IH]; intros x Hk Hx Hid Hle.
    + done.
    + assert (is_Some (nets !! k)) as [net_k Hk'] by (apply lookup_lt_is_Some; lia).
      rewrite (take_S_r _ _ _ Hk'), sync_rounds_snoc.
      rewrite processQueue_queue by (by apply sync_rounds_online).
      specialize (IH x ltac:(lia) Hx Hid ltac:(lia)).
      apply list_elem_of_lookup in IH as [p Hp].
      destruct (iter_bump k x) as [Hid' Hrc'].
      unfold survivors. apply elem_of_survivors_from.
      exists p, (Nat.iter k bump x). split_and!; try done.
      * apply failed_transiently_transient, (Htr k net_k p _ ltac:(lia) Hk' Hp).
        congruence.
      * rewrite Hrc'. lia.
  - intros y Hy Hid.
    pose proof (sync_rounds_aged i0 nets w 0 Hon Hrc y Hy Hid) as Hage.
    assert (nets <> []) as Hne by (intros ->; cbn in Hlen; lia).
    pose proof (sync_rounds_capped nets w y Hon Hne Hy). lia.
Qed.


(** The effects of two callbacks on the store and the counters do not
    depend on the order in which the two run: [promise_all_map] may run
    the callbacks of a batch in the order of the batch. *)
Lemma purge_comm a b (st : gmap string stored) :
  purge a (purge b st) = purge b (purge a st).
Proof.
  apply map_eq. intros k. rewrite !lookup_purge.
  by destruct (stale a k), (stale b k).
Qed.

Lemma attempt_store_comm r1 x1 r2 x2 (st : gmap string stored) :
  attempt_store pathname r1 x1 (attempt_store pathname r2 x2 st) =
  attempt_store pathname r2 x2 (attempt_store pathname r1 x1 st).
Proof.
  unfold attempt_store.
  destruct (classify r1 x1), (resourceType (pathname (url x1))),
    (classify r2 x2), (resourceType (pathname (url x2))); try done.
  apply purge_comm.
Qed.

Lemma attempt_effects_commute rx ry x y s :
  let n := issued s in
  let net := fun m => if decide (m = n) then rx else ry in
  let net' := fun m => if decide (m = n) then ry else rx in
  let '(a, s1) := attempt pathname net x s in
  let '(b, s2) := attempt pathname net y s1 in
  let '(b', s1') := attempt pathname net' y s in
  let '(a', s2') := attempt pathname net' x s1' in
  a = a' /\ b = b'
  /\ store (wd s2) = store (wd s2')
  /\ processed s2 = processed s2' /\ failed s2 = failed s2'
  /\ issued s2 = issued s2'.
Proof.
  intros n net net'. rewrite !attempt_eq. cbn [wd store processed failed issued].
  fold n. subst net net'. cbn beta.
  destruct (decide (n = n)) as [_|]; [|done].
  destruct (decide (S n = n)) as [|_]; [lia|].
  split_and!; try done; try lia.
  apply attempt_store_comm.
Qed.

End Claims.

(** ** The theorems at work on the sample data *)

Lemma processQueue_offline_no_op_witness :
  isOnline offline_world = false
  /\ processQueue path_part sample_net offline_world =
     ({| r_processed := 0; r_failed := 0; r_remaining := 0 |}, offline_world).
Proof.
  split; [reflexivity|].
  apply (processQueue_offline_no_op path_part sample_net offline_world).
  reflexivity.
Defined.


Lemma processQueue_counts_every_item_witness :
  (r_processed (processQueue path_part sample_net sample_world).1
   + r_failed (processQueue path_part sample_net sample_world).1
   + r_remaining (processQueue path_part sample_net sample_world).1 = 7)%Z.
Proof.
  destruct (processQueue_counts_every_item path_part sample_net sample_world)
    as (H & _).
  - reflexivity.
  - rewrite H. vm_compute. reflexivity.
Defined.

Lemma enqueue_appends_item_with_derived_identifier_witness :
  NoDup (id <$> loadQueue (store (enqueue_all sample_calls empty_world))).
Proof.
  destruct (enqueue_appends_item_with_derived_identifier
              1730000000005 1730000000006 "p07ab"
              (mkWriteOp "/api/users/4" DELETE ∅ None)
              (enqueue 1730000000000 1730000000000 "k3x9q"
                 (mkWriteOp "/api/users" POST ∅ None) empty_world))
    as (_ & _ & _ & _ & _ & _ & _ & _ & _ & _ & H).
  apply H.
  - repeat constructor. exists 1730000000000%Z, "k3x9q".
    split; [reflexivity|left; lia].
  - vm_compute. apply NoDup_singleton.
Defined.

Lemma batches_of_three_run_in_sequence_witness :
  length <$> batches (loadQueue (store sample_world)) = [3; 3; 1].
Proof.
  destruct (batches_of_three_run_in_sequence path_part sample_net sample_world)
    as (_ & _ & _ & H & _).
  - reflexivity.
  - vm_compute. discriminate.
  - apply H. vm_compute. reflexivity.
Defined.

Lemma success_invalidates_cache_witness :
  store (processQueue path_part sample_net sample_world).2
    !! "offline_cache_v1:GET:/api/users:t=anon" = None
  /\ processed (attempt path_part sample_net (sample_item "a" "/api/users/1" 0)
                  (start_pass sample_world)).2 = 1%Z.
Proof.
  destruct (success_invalidates_cache path_part sample_net sample_world 0
              (sample_item "a" "/api/users/1" 0) 200 (start_pass sample_world))
    as (Hp & _ & _ & _ & Hgone & _).
  - reflexivity.
  - vm_compute. reflexivity.
  - reflexivity.
  - lia.
  - reflexivity.
  - split.
    + apply (Hgone "users"); vm_compute; reflexivity.
    + rewrite Hp. reflexivity.
Defined.

Lemma client_error_drops_without_retry_witness :
  (attempt path_part sample_net (sample_item "c" "/api/accounts/9" 0)
     {| wd := sample_world; processed := 1; failed := 1; issued := 2 |}).1 =
  (sample_item "c" "/api/accounts/9" 0, None)
  /\ Forall (fun y => id y <> "c")
       (loadQueue (store (processQueue path_part sample_net sample_world).2)).
Proof.
  destruct (client_error_drops_without_retry path_part sample_net sample_world 2
              (sample_item "c" "/api/accounts/9" 0) 404
              {| wd := sample_world; processed := 1; failed := 1; issued := 2 |})
    as (Hres & _ & _ & _ & _ & _ & _ & Hlater).
  - reflexivity.
  - vm_compute. reflexivity.
  - reflexivity.
  - lia.
  - reflexivity.
  - split; [exact Hres|].
    apply Forall_forall. intros y Hy.
    assert (NoDup (id <$> loadQueue (store sample_world))) as Hnd
      by compute_done.
    apply (Hlater Hnd [] y Hy).
Defined.

Lemma transient_failure_retries_then_drops_witness :
  (attempt path_part always_throws (sample_item "a" "/api/users/1" 0)
     (start_pass fresh_world)).1 =
  (sample_item "a" "/api/users/1" 1, Some (sample_item "a" "/api/users/1" 1))
  /\ sample_item "a" "/api/users/1" 5 ∈
       loadQueue (store (sync_rounds path_part (replicate 5 always_throws) fresh_world))
  /\ Forall (fun y => id y <> "a")
       (loadQueue (store (sync_rounds path_part (replicate 7 always_throws) fresh_world))).
Proof.
  destruct (transient_failure_retries_then_drops path_part always_throws
              (sample_item "a" "/api/users/1" 0) (start_pass fresh_world)
              (replicate 7 always_throws) fresh_world "a")
    as (Hres & _ & _ & _ & _ & Hkept & Hgone).
  - left. reflexivity.
  - reflexivity.
  - cbn. lia.
  - intros y Hy _. vm_compute in Hy. apply list_elem_of_singleton in Hy as ->. cbn. lia.
  - intros k net_k p y _ Hk _ _. left.
    apply list_elem_of_lookup_2, elem_of_replicate in Hk as [-> _]. reflexivity.
  - split_and!.
    + exact Hres.
    + apply (Hkept 5 (sample_item "a" "/api/users/1" 0)).
      * lia.
      * vm_compute. apply list_elem_of_singleton. reflexivity.
      * reflexivity.
      * cbn. lia.
    + apply Forall_forall. exact Hgone.
Defined.

(** The sample pass, evaluated. *)

Example sample_pass_result :
  (processQueue path_part sample_net sample_world).1 =
  {| r_processed := 4; r_failed := 2; r_remaining := 1 |}.
Proof. vm_compute. reflexivity. Qed.

Example sample_pass_waits :
  waits (trace (processQueue path_part sample_net sample_world).2) ≡ₚ
  [1000; 2000; 8000; 16000]%Z.
Proof. compute_done. Qed.

Example sample_pass_cache :
  dom (store (processQueue path_part sample_net sample_world).2) =
  {[ QUEUE_KEY; "offline_cache_v1:GET:/api/fiscal-years:t=anon" ]}.
Proof. vm_compute. reflexivity. Qed.

Example sample_resource_types :
  resourceType <$> ["/api/users/1"; "/api/transactions/create"; "/health"; "//api//x/"] =
  [Some "users"; Some "transactions"; None; Some "x"].
Proof. reflexivity. Qed.

Example sample_enqueue_id :
  id (new_item 1730000000000 1730000000001 "k3x9q" (mkWriteOp "/api/users" POST ∅ None)) =
  "1730000000000-k3x9q".
Proof. reflexivity. Qed.

(** * Further properties of the module *)


Lemma string_app_assoc (a b c : string) : (a +:+ b) +:+ c = a +:+ b +:+ c.
Proof.
  induction a as [|x a IH]; [done|].
  change (String x ((a +:+ b) +:+ c) = String x (a +:+ b +:+ c)). by rewrite IH.
Qed.

Lemma string_app_length (a b : string) :
  String.length (a +:+ b) = String.length a + String.length b.
Proof.
  induction a as [|x a IH]; [done|].
  change (S (String.length (a +:+ b)) = S (String.length a + String.length b)).
  by rewrite IH.
Qed.

Lemma append_inj_l (a b s : string) : a +:+ s = b +:+ s -> a = b.
Proof.
  revert b. induction a as [|x a IH]; intros [|y b] H.
  - done.
  - apply (f_equal String.length) in H. rewrite !string_app_length in H. cbn in H. lia.
  - apply (f_equal String.length) in H. rewrite !string_app_length in H. cbn in H. lia.
  - change (String x (a +:+ s) = String y (b +:+ s)) in H.
    injection H as -> H. f_equal. by apply IH.
Qed.

Lemma includes_app_r (a b p : string) :
  includes b p = true -> includes (a +:+ b) p = true.
Proof.
  rewrite !includes_spec. intros (x & y & ->).
  exists (a +:+ x), y. by rewrite string_app_assoc.
Qed.

Lemma includes_app_l (a b p : string) :
  includes a p = true -> includes (a +:+ b) p = true.
Proof.
  rewrite !includes_spec. intros (x & y & ->).
  exists x, (y +:+ b). by rewrite !string_app_assoc.
Qed.

Lemma cacheKeyFor_startsWith ls url :
  startsWith (cacheKeyFor ls url) CACHE_PREFIX = true.
Proof. apply startsWith_spec. unfold cacheKeyFor. eauto. Qed.

Lemma cacheKeyFor_not_queue ls url : cacheKeyFor ls url <> QUEUE_KEY.
Proof.
  intros H. pose proof (cacheKeyFor_startsWith ls url) as Hp.
  rewrite H in Hp. done.
Qed.

(** X1: a cached read returns the payload written last under its key,
    whatever the timestamps, writes under other keys do not show, and a
    removed key reads as absent. *)
Theorem cache_read_after_write now key key' data st :
  getCached (setCached now key data st) key' =
    (if decide (key = key') then Some data else getCached st key')
  /\ getCached (delete key st) key = None.
Proof.
  unfold getCached, setCached. split.
  - destruct (decide (key = key')) as [->|Hne].
    + by rewrite lookup_insert_eq.
    + by rewrite lookup_insert_ne.
  - by rewrite lookup_delete_eq.
Qed.

(** X2: within one session two URLs share a cache key only when they
    are the same URL. *)
Theorem cacheKeyFor_separates_urls ls url1 url2 :
  cacheKeyFor ls url1 = cacheKeyFor ls url2 <-> url1 = url2.
Proof.
  split; [|by intros ->]. unfold cacheKeyFor. intros H.
  do 2 apply append_inj_r in H. by apply append_inj_l in H.
Qed.

(** X3: every key built by [cacheKeyFor] lies in the read-cache
    namespace and is not the queue's key: caching a read never changes
    the queue, and saving the queue never changes a cached read. *)
Theorem cache_entries_stay_clear_of_queue ls url now data st :
  startsWith (cacheKeyFor ls url) CACHE_PREFIX = true
  /\ cacheKeyFor ls url <> QUEUE_KEY
  /\ loadQueue (setCached now (cacheKeyFor ls url) data st) = loadQueue st
  /\ forall q, getCached (saveQueue q st) (cacheKeyFor ls url) =
               getCached st (cacheKeyFor ls url).
Proof.
  pose proof (cacheKeyFor_not_queue ls url) as Hne.
  split_and!; [apply cacheKeyFor_startsWith|done| |].
  - unfold loadQueue, setCached. by rewrite lookup_insert_ne.
  - intros q. unfold getCached, saveQueue. by rewrite lookup_insert_ne.
Qed.

(** X5: the queue saved is the queue loaded; a later save replaces an
    earlier one; without the key the queue is empty; saving the queue
    leaves every other key alone. *)
Theorem queue_save_load_round_trip q q' st :
  loadQueue (saveQueue q st) = q
  /\ saveQueue q' (saveQueue q st) = saveQueue q' st
  /\ loadQueue (delete QUEUE_KEY st) = []
  /\ (forall k, k <> QUEUE_KEY -> saveQueue q st !! k = st !! k).
Proof.
  unfold loadQueue, saveQueue. split_and!.
  - by rewrite lookup_insert_eq.
  - apply insert_insert_eq.
  - by rewrite lookup_delete_eq.
  - intros k Hk. by rewrite lookup_insert_ne.
Qed.

Lemma enqueue_queue a b r req w :
  loadQueue (store (enqueue a b r req w)) =
  loadQueue (store w) ++ [new_item a b r req].
Proof. unfold enqueue, saveQueue, loadQueue at 1. cbn. by rewrite lookup_insert_eq. Qed.

Lemma enqueue_all_snoc cs c w :
  enqueue_all (cs ++ [c]) w =
  enqueue (c_now_id c) (c_now_created c) (c_rnd c) (c_req c) (enqueue_all cs w).
Proof. unfold enqueue_all. by rewrite foldl_app. Qed.

Lemma enqueue_all_spec cs w :
  let w' := enqueue_all cs w in
  loadQueue (store w') = loadQueue (store w) ++ (item_of_call <$> cs)
  /\ (forall k, k <> QUEUE_KEY -> store w' !! k = store w !! k)
  /\ fetches (trace w') = fetches (trace w)
  /\ isOnline w' = isOnline w /\ localStorage w' = localStorage w.
Proof.
  induction cs as [|c cs IH] using rev_ind; cbn zeta.
  - cbn. by rewrite app_nil_r.
  - rewrite enqueue_all_snoc. destruct IH as (Hq & Hk & Hf & Hon & Hls).
    split_and!.
    + rewrite enqueue_queue, Hq, fmap_app, <- app_assoc. done.
    + intros k Hne. unfold enqueue, saveQueue. cbn. rewrite lookup_insert_ne by done. by apply Hk.
    + unfold enqueue. cbn. rewrite fetches_app. cbn. by rewrite app_nil_r.
    + done.
    + done.
Qed.

Section More.
Variable pathname : string -> string.

Lemma fetches_segments k bodies :
  fetches (segments k bodies) = concat (fetches <$> bodies).
Proof.
  revert k. induction bodies as [|b bodies IH]; intros k; [done|].
  cbn [segments fmap list_fmap concat]. unfold batch_segment.
  rewrite fetches_app. cbn [fetches]. rewrite fetches_app. cbn [fetches].
  by rewrite app_nil_r, IH.
Qed.

Lemma batch_ran_fetches bodies bs :
  Forall2 batch_ran bodies bs ->
  concat (fetches <$> bodies) ≡ₚ request_of <$> concat bs.
Proof.
  induction 1 as [|body b bodies bs [_ Hb] _ IH]; [done|].
  cbn [fmap list_fmap concat]. rewrite fmap_app.
  by apply Permutation_app.
Qed.

(** Requests of a pass, relative to the trace before it: those of the
    queued items, up to the order inside each batch. *)
Lemma processQueue_fetches net w :
  fetches (drop (length (trace w)) (trace (processQueue pathname net w).2)) ≡ₚ
  if isOnline w then request_of <$> loadQueue (store w) else [].
Proof.
  destruct (isOnline w) eqn:Hon.
  - destruct (decide (loadQueue (store w) = [])) as [Hq|Hq].
    + rewrite processQueue_empty by done. rewrite Hq. cbn.
      by rewrite drop_app_length.
    + destruct (processQueue_online pathname net w Hon Hq) as (bodies & -> & Hb).
      cbn [snd trace]. rewrite drop_app_length, !fetches_app. cbn [fetches].
      rewrite fetches_segments, app_nil_r. cbn [app].
      rewrite (batch_ran_fetches _ _ Hb). by rewrite concat_batches.
  - unfold processQueue. rewrite Hon. cbn. by rewrite drop_all.
Qed.

(** X8: an online pass that finds no queued item returns the all-zero
    result after reading the queue once; it writes nothing, so the store
    is as it was. *)
Theorem processQueue_empty_queue_reads_only net w :
  isOnline w = true -> loadQueue (store w) = [] ->
  processQueue pathname net w =
    ({| r_processed := 0; r_failed := 0; r_remaining := 0 |},
     {| navigator := navigator w; localStorage := localStorage w;
        store := store w; trace := trace w ++ [EvLoad] |}).
Proof. intros Hon Hq. by rewrite processQueue_empty. Qed.

(** X9: an online pass sends exactly one request per queued item: the
    requests of the pass are those of the queued items, each as often as
    the item occurs in the queue, in an order this statement leaves open;
    there are as many requests as items. *)
Theorem processQueue_requests_each_item_once net w :
  isOnline w = true ->
  let sent := fetches (drop (length (trace w)) (trace (processQueue pathname net w).2)) in
  sent ≡ₚ request_of <$> loadQueue (store w)
  /\ length sent = length (loadQueue (store w)).
Proof.
  intros Hon sent. subst sent.
  pose proof (processQueue_fetches net w) as H. rewrite Hon in H.
  split; [done|]. by rewrite H, length_fmap.
Qed.

Lemma request_of_headers item h :
  rq_headers (request_of item) !! h =
  if decide (h = "X-Offline-Sync") then Some "true"
  else if decide (h = "Content-Type")
       then Some (default "application/json" (headers item !! "Content-Type"))
       else headers item !! h.
Proof.
  unfold request_of. cbn.
  destruct (decide (h = "X-Offline-Sync")) as [->|Hx].
  - by rewrite lookup_insert_eq.
  - rewrite lookup_insert_ne by done. rewrite lookup_union.
    destruct (decide (h = "Content-Type")) as [->|Hc].
    + rewrite lookup_singleton_eq. by destruct (headers item !! "Content-Type").
    + rewrite lookup_singleton_ne by done. by destruct (headers item !! h).
Qed.

(** X10: every request of a pass comes from a queued item, with its
    URL, method and body; it carries [X-Offline-Sync: true] even when the
    item's headers say otherwise, [Content-Type: application/json] unless
    the item's headers set another, and the item's other headers. *)
Theorem requests_carry_sync_marker net w rq h :
  rq ∈ fetches (drop (length (trace w)) (trace (processQueue pathname net w).2)) ->
  exists item,
    item ∈ loadQueue (store w)
    /\ rq_url rq = url item /\ rq_method rq = method item /\ rq_body rq = body item
    /\ rq_headers rq !! "X-Offline-Sync" = Some "true"
    /\ rq_headers rq !! "Content-Type" =
         Some (default "application/json" (headers item !! "Content-Type"))
    /\ (h <> "X-Offline-Sync" -> h <> "Content-Type" ->
        rq_headers rq !! h = headers item !! h).
Proof.
  rewrite processQueue_fetches. destruct (isOnline w); [|by intros ?%elem_of_nil].
  intros (item & -> & Hitem)%list_elem_of_fmap. exists item.
  split_and!; try done.
  - by rewrite request_of_headers.
  - by rewrite request_of_headers.
  - intros Hx Hc. rewrite request_of_headers.
    by rewrite !decide_False.
Qed.


Lemma survivors_from_sublist net p q :
  exists l, l `sublist_of` q /\ survivors_from net p q = bump <$> l.
Proof.
  revert p. induction q as [|x q IH]; intros p; cbn [survivors_from].
  - by exists [].
  - destruct (IH (S p)) as (l & Hl & ->).
    destruct (transient (net p) && within_retries x).
    + exists (x :: l). split; [by apply sublist_skip|done].
    + exists l. split; [by apply sublist_cons|done].
Qed.

(** X11: the queue left by an online pass is a subsequence of the queue
    it loaded, in the same order; each item kept differs from the loaded
    one only by its retry count, which is one more. *)
Theorem survivors_keep_queue_order net w :
  isOnline w = true ->
  exists l,
    l `sublist_of` loadQueue (store w)
    /\ loadQueue (store (processQueue pathname net w).2) = bump <$> l
    /\ length l <= length (loadQueue (store w))
    /\ Forall2 (fun y x =>
                  id y = id x /\ url y = url x /\ method y = method x
                  /\ headers y = headers x /\ body y = body x
                  /\ createdAt y = createdAt x
                  /\ retryCount y = (retryCount x + 1)%Z)
               (loadQueue (store (processQueue pathname net w).2)) l.
Proof.
  intros Hon. rewrite processQueue_queue by done.
  destruct (survivors_from_sublist net 0 (loadQueue (store w))) as (l & Hl & Hs).
  exists l. unfold survivors. rewrite Hs. split_and!; try done.
  - by apply sublist_length.
  - apply Forall2_fmap_l, Forall_Forall2_diag, Forall_forall. done.
Qed.

Lemma backoffTime_small rc :
  (1 <= rc <= 5)%Z -> (1000 <= backoffTime rc <= 16000)%Z.
Proof.
  intros H. assert (rc = 1 \/ rc = 2 \/ rc = 3 \/ rc = 4 \/ rc = 5)%Z
    as [->|[->|[->|[->| ->]]]] by lia; cbn; lia.
Qed.

(** X12: when no loaded item has a negative retry count, every item an
    online pass leaves in the queue has a retry count from 1 to 5, so
    the wait before its next attempt is between 1 and 16 seconds: the
    30-second cap is never reached for it. *)
Theorem persisted_retry_counts_stay_below_cap net w y :
  isOnline w = true ->
  (forall x, x ∈ loadQueue (store w) -> (0 <= retryCount x)%Z) ->
  y ∈ loadQueue (store (processQueue pathname net w).2) ->
  (1 <= retryCount y <= 5)%Z
  /\ (1000 <= backoffTime (retryCount y) <= 16000)%Z.
Proof.
  intros Hon Hrc. rewrite processQueue_queue by done. unfold survivors.
  intros Hy. assert (1 <= retryCount y <= 5)%Z as H.
  { apply elem_of_survivors_from in Hy as (i & x & Hi & _ & Hle & ->).
    assert (0 <= retryCount x)%Z by (apply Hrc, list_elem_of_lookup; eauto).
    cbn. lia. }
  split; [done|]. by apply backoffTime_small.
Qed.

(** X13: the backoff never decreases with the retry count, lies between
    0 and 30000 ms, and equals the cap exactly from retry count 6 on. *)
Theorem backoff_is_monotone_and_capped a b :
  (a <= b)%Z ->
  (backoffTime a <= backoffTime b)%Z
  /\ (0 <= backoffTime a <= 30000)%Z
  /\ (backoffTime a = 30000%Z <-> (6 <= a)%Z).
Proof.
  intros Hab.
  assert (forall r, 0 < r -> 0 < 2 ^ (r - 1))%Z as Hpos
    by (intros; apply Z.pow_pos_nonneg; lia).
  assert (forall r, 6 <= r -> backoffTime r = 30000)%Z as Hcap.
  { intros r Hr. unfold backoffTime. destruct (Z.ltb_spec 0 r); [|lia].
    assert (2 ^ 5 <= 2 ^ (r - 1))%Z by (apply Z.pow_le_mono_r; lia).
    change (2 ^ 5)%Z with 32%Z in *. lia. }
  assert (forall r, r <= 5 -> 0 <= backoffTime r <= 16000)%Z as Hlow.
  { intros r Hr. destruct (Z.le_gt_cases r 0).
    - unfold backoffTime. destruct (Z.ltb_spec 0 r); lia.
    - pose proof (backoffTime_small r). lia. }
  split_and!.
  - unfold backoffTime.
    destruct (Z.ltb_spec 0 a), (Z.ltb_spec 0 b); try lia.
    all: try (specialize (Hpos b); lia).
    assert (2 ^ (a - 1) <= 2 ^ (b - 1))%Z by (apply Z.pow_le_mono_r; lia). lia.
  - destruct (Z.le_gt_cases a 5); [pose proof (Hlow a)|rewrite Hcap]; lia.
  - destruct (Z.le_gt_cases a 5); [pose proof (Hlow a)|rewrite Hcap]; lia.
  - split; [|apply Hcap].
    intros H. destruct (Z.le_gt_cases a 5); [pose proof (Hlow a)|]; lia.
Qed.

(** X14: when no queued item has a negative retry count, six
    consecutive online passes empty the queue, whatever the network
    answers. *)
Theorem queue_drains_within_six_passes nets w :
  isOnline w = true ->
  (forall x, x ∈ loadQueue (store w) -> (0 <= retryCount x)%Z) ->
  6 <= length nets ->
  loadQueue (store (sync_rounds pathname nets w)) = [].
Proof.
  intros Hon Hrc Hlen.
  destruct (loadQueue (store (sync_rounds pathname nets w))) as [|y l] eqn:E; [done|].
  assert (y ∈ loadQueue (store (sync_rounds pathname nets w))) as Hy
    by (rewrite E; left).
  assert (nets <> []) as Hne by (intros ->; cbn in Hlen; lia).
  pose proof (sync_rounds_capped pathname nets w y Hon Hne Hy) as Hcap.
  pose proof (sync_rounds_aged pathname (id y) nets w 0 Hon
                (fun x Hx _ => Hrc x Hx) y Hy eq_refl) as Hage.
  lia.
Qed.

(** X15: a response whose status is neither 2xx nor 4xx (a 304, a 3xx
    without redirect, a status below 200) is handled like a server
    error: the retry count goes up, the item is kept while the new count
    is at most 5 and counted as failed otherwise; the cache is left
    alone. *)
Theorem other_statuses_are_retried net item s status :
  net (issued s) = Responded status ->
  ~ (200 <= status <= 299)%Z -> ~ (400 <= status <= 499)%Z ->
  let rc' := (retryCount item + 1)%Z in
  let res := (attempt pathname net item s).1 in
  let s' := (attempt pathname net item s).2 in
  res = (bump item, if decide (rc' <= 5)%Z then Some (bump item) else None)
  /\ failed s' = (failed s + if decide (rc' <= 5)%Z then 0 else 1)%Z
  /\ processed s' = processed s
  /\ store (wd s') = store (wd s).
Proof.
  intros Hnet H2 H4 rc' res s'. subst res s'.
  assert (transient (net (issued s)) = true) as Ht.
  { rewrite Hnet. unfold transient, success, client_error.
    destruct (Z.leb_spec 200 status), (Z.leb_spec status 299),
      (Z.leb_spec 400 status), (Z.leb_spec status 499); try lia; done. }
  rewrite attempt_eq. cbn [fst snd wd processed failed store].
  unfold attempt_processed, attempt_failed, attempt_result, attempt_store.
  rewrite (classify_transient _ item Ht). fold rc'.
  destruct (decide (rc' <= 5)%Z); split_and!; try done; lia.
Qed.

Lemma store_after_no_success net p l (st : gmap string stored) :
  (forall i x, l !! i = Some x -> classify (net (p + i)) x <> Succeeded) ->
  store_after pathname net p l st = st.
Proof.
  revert p st. induction l as [|x l IH]; intros p st H; [done|].
  cbn [store_after]. unfold attempt_store.
  assert (classify (net p) x <> Succeeded) as Hx
    by (specialize (H 0 x eq_refl); by rewrite Nat.add_0_r in H).
  destruct (classify (net p) x); try done; apply IH; intros i y Hi;
    specialize (H (S i) y Hi); by replace (S p + i) with (p + S i) by lia.
Qed.

Lemma tally_none sel net p l :
  (forall i x, l !! i = Some x -> sel (classify (net (p + i)) x) = false) ->
  tally_from sel net p l = 0%Z.
Proof.
  revert p. induction l as [|x l IH]; intros p H; [done|].
  cbn [tally_from]. rewrite IH.
  - specialize (H 0 x eq_refl). rewrite Nat.add_0_r in H. by rewrite H.
  - intros i y Hi. specialize (H (S i) y Hi).
    by replace (S p + i) with (p + S i) by lia.
Qed.

(** X16: a pass in which no request is answered with a 2xx status
    changes nothing in the store but the queue, and processes nothing. *)
Theorem pass_without_success_keeps_cache net w :
  isOnline w = true -> loadQueue (store w) <> [] ->
  (forall n status, net n = Responded status -> ~ (200 <= status <= 299)%Z) ->
  let q := loadQueue (store w) in
  let r := (processQueue pathname net w).1 in
  let w' := (processQueue pathname net w).2 in
  store w' = saveQueue (survivors net q) (store w)
  /\ (forall key, key <> QUEUE_KEY -> store w' !! key = store w !! key)
  /\ r_processed r = 0%Z.
Proof.
  intros Hon Hq Hnet q r w'. subst r w'.
  assert (forall i x, classify (net i) x <> Succeeded) as Hc.
  { intros i x. unfold classify. destruct (net i) as [|status] eqn:E.
    - by destruct (within_retries x).
    - specialize (Hnet i status E). unfold success.
      destruct (Z.leb_spec 200 status), (Z.leb_spec status 299); try lia;
        cbn; by destruct (client_error status), (within_retries x). }
  destruct (processQueue_online pathname net w Hon Hq) as (bodies & -> & _).
  fold q. cbn [fst snd store r_processed].
  rewrite store_after_no_success by (intros; apply Hc).
  split_and!; [done| |].
  - intros key Hk. unfold saveQueue. by rewrite lookup_insert_ne.
  - apply tally_none. intros i x _. specialize (Hc (0 + i) x).
    by destruct (classify (net (0 + i)) x).
Qed.


Lemma stale_startsWith rt key : stale rt key = true -> startsWith key CACHE_PREFIX = true.
Proof. unfold stale. by intros [_ ?]%andb_true_iff. Qed.

Lemma attempt_store_lookup r x (st : gmap string stored) k :
  attempt_store pathname r x st !! k = st !! k
  \/ (attempt_store pathname r x st !! k = None /\ startsWith k CACHE_PREFIX = true).
Proof.
  unfold attempt_store.
  destruct (classify r x), (resourceType (pathname (url x))) as [rt|]; auto.
  rewrite lookup_purge. destruct (stale rt k) eqn:E; auto.
  right. split; [done|]. by apply (stale_startsWith rt).
Qed.

Lemma store_after_lookup net p l (st : gmap string stored) k :
  store_after pathname net p l st !! k = st !! k
  \/ (store_after pathname net p l st !! k = None /\ startsWith k CACHE_PREFIX = true).
Proof.
  revert p st. induction l as [|x l IH]; intros p st; cbn [store_after]; [auto|].
  destruct (IH (S p) (attempt_store pathname (net p) x st)) as [->|[-> Hk]]; [|auto].
  apply attempt_store_lookup.
Qed.

(** X17: a pass, online or not, leaves every key other than the queue's
    as it was or removes it, and the keys it removes lie in the
    read-cache namespace. *)
Theorem pass_only_removes_cache_entries net w key :
  key <> QUEUE_KEY ->
  let w' := (processQueue pathname net w).2 in
  store w' !! key = store w !! key
  \/ (store w' !! key = None /\ startsWith key CACHE_PREFIX = true).
Proof.
  intros Hk w'. subst w'. destruct (isOnline w) eqn:Hon.
  - destruct (decide (loadQueue (store w) = [])) as [Hq|Hq].
    + rewrite processQueue_empty by done. by left.
    + destruct (processQueue_online pathname net w Hon Hq) as (bodies & -> & _).
      cbn [snd store]. unfold saveQueue. rewrite lookup_insert_ne by done.
      apply store_after_lookup.
  - unfold processQueue. rewrite Hon. by left.
Qed.

(** X18: after a pass in which a mutation of resource type [rt]
    succeeded, the cached read of any URL that contains [rt] is gone,
    for every session. *)
Theorem success_invalidates_reads_of_every_session net w i item status rt ls u :
  isOnline w = true ->
  loadQueue (store w) !! i = Some item ->
  net i = Responded status -> (200 <= status <= 299)%Z ->
  resourceType (pathname (url item)) = Some rt ->
  includes u rt = true ->
  getCached (store (processQueue pathname net w).2) (cacheKeyFor ls u) = None.
Proof.
  intros Hon Hi Hnet Hst Hrt Hu.
  assert (loadQueue (store w) <> []) as Hq by (intros E; by rewrite E in Hi).
  destruct (processQueue_online pathname net w Hon Hq) as (bodies & -> & _).
  cbn [snd store]. unfold getCached, saveQueue.
  rewrite lookup_insert_ne by (apply not_eq_sym, cacheKeyFor_not_queue).
  rewrite (store_after_purged pathname net 0 _ _ i item rt); try done.
  - cbn [Nat.add]. rewrite Hnet. by apply classify_success.
  - unfold stale. rewrite cacheKeyFor_startsWith, andb_true_r.
    unfold cacheKeyFor. do 2 apply includes_app_r. by apply includes_app_l.
Qed.

(** X19: a resource type that occurs inside the namespace prefix itself
    (such as [v1] or [cache]) matches every cache key: one successful
    mutation of that type empties the read cache. *)
Theorem resource_type_inside_prefix_clears_cache net w i item status rt key :
  isOnline w = true ->
  loadQueue (store w) !! i = Some item ->
  net i = Responded status -> (200 <= status <= 299)%Z ->
  resourceType (pathname (url item)) = Some rt ->
  includes CACHE_PREFIX rt = true ->
  startsWith key CACHE_PREFIX = true ->
  store (processQueue pathname net w).2 !! key = None.
Proof.
  intros Hon Hi Hnet Hst Hrt Hin Hkey.
  assert (loadQueue (store w) <> []) as Hq by (intros E; by rewrite E in Hi).
  destruct (processQueue_online pathname net w Hon Hq) as (bodies & -> & _).
  cbn [snd store]. unfold saveQueue.
  rewrite lookup_insert_ne by (intros <-; done).
  apply (store_after_purged pathname net 0 _ _ i item rt); try done.
  - cbn [Nat.add]. rewrite Hnet. by apply classify_success.
  - unfold stale. rewrite Hkey, andb_true_r.
    apply startsWith_spec in Hkey as [b ->]. by apply includes_app_l.
Qed.

Lemma all_success_classify (net : nat -> fetch_result) :
  (forall n, exists status, net n = Responded status /\ (200 <= status <= 299)%Z) ->
  forall n x, classify (net n) x = Succeeded.
Proof. intros H n x. destruct (H n) as (status & -> & Hs). by apply classify_success. Qed.

Lemma survivors_from_none (net : nat -> fetch_result) p l :
  (forall n x, classify (net n) x = Succeeded) -> survivors_from net p l = [].
Proof.
  intros H. revert p. induction l as [|x l IH]; intros p; [done|].
  cbn [survivors_from]. rewrite IH, app_nil_r.
  by rewrite (classify_exclusive_success _ _ (H p x)).
Qed.

Lemma tally_all (net : nat -> fetch_result) p l :
  (forall n x, classify (net n) x = Succeeded) ->
  tally_from is_success net p l = Z.of_nat (length l).
Proof.
  intros H. revert p. induction l as [|x l IH]; intros p; [done|].
  cbn [tally_from length]. rewrite IH, H. cbn. lia.
Qed.

(** X7: with the network answering every request with a 2xx status, an
    online pass after some calls of [enqueue] sends one request for every
    queued item, old and new (the requests of the pass are those of the
    items, in an order this statement leaves open), reports all of them
    as processed and leaves an empty queue. *)
Theorem enqueued_writes_reach_the_server cs net w :
  isOnline w = true ->
  (forall n, exists status, net n = Responded status /\ (200 <= status <= 299)%Z) ->
  let w1 := enqueue_all cs w in
  let r := (processQueue pathname net w1).1 in
  let w2 := (processQueue pathname net w1).2 in
  fetches (drop (length (trace w1)) (trace w2)) ≡ₚ
    request_of <$> (loadQueue (store w) ++ (item_of_call <$> cs))
  /\ r = {| r_processed := Z.of_nat (length (loadQueue (store w)) + length cs);
            r_failed := 0; r_remaining := 0 |}
  /\ loadQueue (store w2) = [].
Proof.
  intros Hon Hnet w1 r w2. subst r w2.
  destruct (enqueue_all_spec cs w) as (Hq & _ & _ & Hon1 & _).
  fold w1 in Hq, Hon1. rewrite Hon in Hon1.
  pose proof (all_success_classify net Hnet) as Hc.
  split_and!.
  - pose proof (processQueue_fetches net w1) as H.
    by rewrite Hon1, Hq in H.
  - destruct (decide (loadQueue (store w1) = [])) as [E|E].
    + rewrite processQueue_empty by done. cbn.
      rewrite Hq in E. apply (f_equal length) in E.
      rewrite length_app, length_fmap in E. cbn in E. by rewrite E.
    + destruct (processQueue_online pathname net w1 Hon1 E) as (bodies & -> & _).
      cbn [fst]. unfold survivors.
      rewrite survivors_from_none, tally_all, Hq by done.
      rewrite tally_none by (intros; by rewrite Hc).
      by rewrite length_app, length_fmap.
  - rewrite processQueue_queue by done. by apply survivors_from_none.
Qed.

End More.

(** X4: after [setToken] the cache key is built from the fingerprint of
    the token just set, whatever was stored before; it is the key of a
    session whose storage cannot be read exactly when that fingerprint
    is [anon] (no token, an empty token, or the token ["anon"]). *)
Theorem setToken_selects_the_cache_namespace token ls ls' url :
  setToken token ls = Some ls' ->
  getToken ls' = Some (getTokenForCache ls')
  /\ cacheKeyFor ls' url =
       CACHE_PREFIX +:+ "GET:" +:+ url +:+ ":t=" +:+ fingerprint token
  /\ (cacheKeyFor ls' url = cacheKeyFor LsThrows url <-> fingerprint token = "anon").
Proof.
  destruct ls as [|old]; [done|]. intros [= <-].
  assert (fingerprint (getTokenForCache (LsHolds
            match token with
            | Some t => if truthy t then Some t else None
            | None => None
            end)) = fingerprint token) as Hfp.
  { destruct token as [[|c t]|]; done. }
  split_and!; [done| |].
  - unfold cacheKeyFor. by rewrite Hfp.
  - unfold cacheKeyFor. rewrite Hfp. cbn [getTokenForCache fingerprint]. split.
    + intros H. by do 4 apply append_inj_r in H.
    + by intros ->.
Qed.

(** X6: calls of [enqueue] append in call order: the queue grows by one
    item per call, the items queued before stay in front, the new items
    follow in the order of the calls with retry count 0; no other key of
    the store changes and no request is sent. *)
Theorem enqueue_all_is_fifo cs w :
  let q := loadQueue (store w) in
  let w' := enqueue_all cs w in
  let q' := loadQueue (store w') in
  length q' = length q + length cs
  /\ take (length q) q' = q
  /\ drop (length q) q' = item_of_call <$> cs
  /\ Forall (fun x => retryCount x = 0%Z) (drop (length q) q')
  /\ (forall k, k <> QUEUE_KEY -> store w' !! k = store w !! k)
  /\ fetches (trace w') = fetches (trace w).
Proof.
  intros q w' q'. destruct (enqueue_all_spec cs w) as (Hq & Hk & Hf & _).
  subst q'. fold w' in Hq, Hk, Hf. fold q in Hq. rewrite Hq.
  rewrite length_app, length_fmap, take_app_length, drop_app_length.
  split_and!; try done.
  apply Forall_fmap, Forall_forall. done.
Qed.

Lemma split_head_prefix sep s :
  exists h r, split sep s = h :: r /\ String.prefix h s = true
              /\ Forall (fun seg => includes s seg = true) r.
Proof.
  induction s as [|c s (h & r & E & Hh & Hr)]; cbn [split].
  - by exists EmptyString, [].
  - assert (forall seg, includes s seg = true -> includes (String c s) seg = true) as Hup.
    { intros seg H. cbn [includes]. rewrite H. apply orb_true_r. }
    destruct (Ascii.eqb c sep).
    + exists EmptyString, (h :: r). rewrite E. split_and!; [done|done|].
      constructor.
      * apply Hup. destruct s; cbn [includes]; by rewrite Hh.
      * eapply Forall_impl; [exact Hr|]. apply Hup.
    + rewrite E. exists (String c h), r. split_and!; [done| |].
      * cbn. destruct (ascii_dec c c); [done|congruence].
      * eapply Forall_impl; [exact Hr|]. apply Hup.
Qed.

Lemma split_segments_included sep s seg :
  seg ∈ split sep s -> includes s seg = true.
Proof.
  destruct (split_head_prefix sep s) as (h & r & -> & Hh & Hr).
  intros [->|H]%elem_of_cons.
  - destruct s; cbn [includes]; by rewrite Hh.
  - rewrite Forall_forall in Hr. by apply Hr.
Qed.

Lemma split_segments_no_sep sep s seg :
  seg ∈ split sep s -> includes seg (String sep EmptyString) = false.
Proof.
  revert seg. induction s as [|c s IH]; intros seg; cbn [split].
  - by intros ->%list_elem_of_singleton.
  - destruct (Ascii.eqb_spec c sep) as [->|Hne].
    + intros [->|H]%elem_of_cons; [done|by apply IH].
    + destruct (split sep s) as [|h r] eqn:E.
      * intros ->%list_elem_of_singleton. cbn.
        destruct (ascii_dec sep c); [congruence|done].
      * intros [->|H]%elem_of_cons.
        -- cbn [includes]. rewrite (IH h) by left. rewrite orb_false_r.
           cbn. destruct (ascii_dec sep c); [congruence|done].
        -- apply IH. by right.
Qed.

(** X20: the resource type taken from a path is never empty, contains
    no slash and occurs in the path. *)
Theorem resourceType_is_a_segment_of_the_path p rt :
  resourceType p = Some rt ->
  rt <> EmptyString /\ includes rt "/" = false /\ includes p rt = true.
Proof.
  unfold resourceType. intros H.
  apply list_elem_of_lookup_2, list_elem_of_In, filter_In in H as [H Ht].
  apply list_elem_of_In in H. split_and!.
  - by destruct rt.
  - by apply (split_segments_no_sep "/" p).
  - by apply (split_segments_included "/" p).
Qed.

(** ** The scheduler *)


Lemma attemptSync_frame i sc :
  onLine (attemptSync i sc) = onLine sc /\ started (attemptSync i sc) = started sc
  /\ cleanup (attemptSync i sc) = cleanup sc
  /\ listeners (attemptSync i sc) = listeners sc
  /\ intervals (attemptSync i sc) = intervals sc
  /\ length (closures (attemptSync i sc)) = length (closures sc).
Proof.
  unfold attemptSync. destruct (closures sc !! i) as [c|]; [|done].
  destruct (syncInProgress c || negb (onLine sc)); [done|]. cbn.
  by rewrite length_insert.
Qed.

Lemma attemptSync_guard i sc : guard_sound sc -> guard_sound (attemptSync i sc).
Proof.
  unfold guard_sound, attemptSync. intros H.
  destruct (closures sc !! i) as [c|] eqn:E; [|done].
  destruct (syncInProgress c) eqn:Hf; [done|].
  destruct (onLine sc); [|done]. cbn.
  apply Forall_insert; [done|]. cbn.
  rewrite Forall_lookup in H. specialize (H i c E). cbn in H. rewrite Hf in H.
  by rewrite H.
Qed.

Lemma attemptSync_registered i sc :
  registered_once sc -> registered_once (attemptSync i sc).
Proof.
  unfold registered_once. destruct (attemptSync_frame i sc) as (_ & -> & -> & -> & -> & ->).
  done.
Qed.

Lemma step_keeps_invariants sc a :
  registered_once sc /\ guard_sound sc ->
  registered_once (step sc a) /\ guard_sound (step sc a).
Proof.
  intros [Hr Hg]. destruct a as [| | | |i|i]; cbn [step].
  - unfold startOfflineSync. destruct (started sc) eqn:Hs; [done|].
    unfold registered_once in *. cbn.
    destruct (cleanup sc) as [j|]; [destruct Hr as (? & _); congruence|].
    destruct Hr as (_ & -> & ->). split.
    + split_and!; try done. rewrite length_app. cbn. lia.
    + unfold guard_sound in *. cbn. apply Forall_app. split; [done|].
      by repeat constructor.
  - unfold stopOfflineSync. destruct (started sc) eqn:Hs; [|done]. cbn.
    unfold registered_once in *. destruct (cleanup sc) as [j|]; cbn.
    + destruct Hr as (_ & -> & -> & _). cbn. rewrite Nat.eqb_refl. done.
    + destruct Hr as (? & _). congruence.
  - assert (registered_once (set_onLine true sc) /\ guard_sound (set_onLine true sc)) as H
      by done.
    revert H. generalize (set_onLine true sc). generalize (listeners sc).
    intros l. induction l as [|j l IH]; intros sc' [H1 H2]; [done|].
    cbn. apply IH. split; [by apply attemptSync_registered|by apply attemptSync_guard].
  - done.
  - case_bool_decide; [|done]. destruct (onLine sc); [|done].
    split; [by apply attemptSync_registered|by apply attemptSync_guard].
  - unfold settle. destruct (closures sc !! i) as [c|] eqn:E; [|done].
    destruct (pending c) as [|n] eqn:Hp; [done|]. split.
    + unfold registered_once in *. cbn. rewrite length_insert. done.
    + unfold guard_sound in *. cbn. apply Forall_insert; [done|]. cbn.
      rewrite Forall_lookup in Hg. specialize (Hg i c E). cbn in Hg.
      rewrite Hp in Hg. destruct (syncInProgress c); lia.
Qed.

Lemma run_invariants acts : registered_once (run acts) /\ guard_sound (run acts).
Proof.
  unfold run. induction acts as [|a acts IH] using rev_ind.
  - split; [done|constructor].
  - rewrite foldl_app. cbn. by apply step_keeps_invariants.
Qed.

(** X21: whatever sequence of calls and events the scheduler has seen,
    it has one 'online' listener and one interval timer while started,
    both of the closure its teardown belongs to, and none while stopped;
    the teardown is held exactly while started. *)
Theorem scheduler_registers_exactly_once_while_started acts :
  let sc := run acts in
  listeners sc = intervals sc
  /\ listeners sc = (if started sc then option_list (cleanup sc) else [])
  /\ (started sc = true <-> is_Some (cleanup sc))
  /\ length (listeners sc) = (if started sc then 1 else 0).
Proof.
  intros sc. destruct (run_invariants acts) as [Hr _]. fold sc in Hr.
  unfold registered_once in Hr. destruct (cleanup sc) as [i|].
  - destruct Hr as (-> & -> & -> & _). split_and!; try done; split; eauto.
  - destruct Hr as (-> & -> & ->). split_and!; try done;
      (split; [done|]; by intros [? ?]).
Qed.

(** X22: at any time a closure of [setupOfflineSync] awaits at most one
    pass, and it awaits one exactly when its [syncInProgress] flag is
    set. *)
Theorem scheduler_guard_allows_one_pass_per_closure acts i c :
  closures (run acts) !! i = Some c ->
  pending c <= 1 /\ (pending c = 1 <-> syncInProgress c = true).
Proof.
  intros Hc. destruct (run_invariants acts) as [_ Hg].
  unfold guard_sound in Hg. rewrite Forall_lookup in Hg. specialize (Hg i c Hc).
  cbn in Hg. rewrite Hg. destruct (syncInProgress c); split; try lia; done.
Qed.

Lemma attemptSync_launched i sc :
  launched (attemptSync i sc) = launched sc
  \/ (launched (attemptSync i sc) = launched sc ++ [Guarded i] /\ onLine sc = true).
Proof.
  unfold attemptSync. destruct (closures sc !! i) as [c|]; [|by left].
  destruct (syncInProgress c); [by left|]. destruct (onLine sc); [|by left].
  right. done.
Qed.

(** X23: while the scheduler is stopped, nothing but a call of
    [startOfflineSync] launches a pass: neither the 'online' event, nor a
    timer, nor a settling pass. *)
Theorem scheduler_launches_nothing_when_stopped acts a :
  started (run acts) = false -> a <> Start ->
  launched (step (run acts) a) = launched (run acts)
  /\ started (step (run acts) a) = false.
Proof.
  intros Hs Ha. destruct (run_invariants acts) as [Hr _].
  set (sc := run acts) in *. unfold registered_once in Hr.
  destruct (cleanup sc) as [i|] eqn:Hc; [destruct Hr as (? & _); congruence|].
  destruct Hr as (_ & Hl & Hi).
  destruct a as [| | | |j|j]; cbn [step]; try done.
  - unfold stopOfflineSync. by rewrite Hs.
  - by rewrite Hl.
  - rewrite Hi. rewrite bool_decide_eq_false_2; [done|]. by intros ?%elem_of_nil.
  - unfold settle. destruct (closures sc !! j) as [c|]; [|done].
    by destruct (pending c).
Qed.

(** X24: no step that ends with the browser offline adds a pass
    launched by [attemptSync]. *)
Theorem scheduler_launches_no_guarded_pass_offline sc a :
  onLine (step sc a) = false ->
  List.filter is_guarded (launched (step sc a)) = List.filter is_guarded (launched sc).
Proof.
  destruct a as [| | | |j|j]; cbn [step].
  - unfold startOfflineSync. destruct (started sc); [done|]. cbn.
    intros _. rewrite List.filter_app. cbn. by rewrite app_nil_r.
  - unfold stopOfflineSync. destruct (started sc); [|done]. cbn.
    by destruct (cleanup sc).
  - assert (onLine (set_onLine true sc) = true) as H by done.
    revert H. generalize (set_onLine true sc). generalize (listeners sc).
    intros l. induction l as [|i l IH]; intros sc' H; cbn; [congruence|].
    apply IH. by destruct (attemptSync_frame i sc') as (-> & _).
  - done.
  - case_bool_decide; [|done]. destruct (onLine sc) eqn:E; [|done].
    destruct (attemptSync_frame j sc) as (-> & _). congruence.
  - unfold settle. destruct (closures sc !! j) as [c|]; [|done].
    by destruct (pending c).
Qed.

(** ** The further properties at work on the sample data *)

Lemma setToken_selects_the_cache_namespace_witness :
  cacheKeyFor (LsHolds (Some token_alice)) "/api/x" =
  "offline_cache_v1:GET:/api/x:t=eyJhbGciOiJIUzI1".
Proof.
  destruct (setToken_selects_the_cache_namespace (Some token_alice) (LsHolds None)
              (LsHolds (Some token_alice)) "/api/x") as (_ & H & _).
  - reflexivity.
  - rewrite H. reflexivity.
Defined.

Lemma enqueued_writes_reach_the_server_witness :
  loadQueue (store (processQueue path_part always_ok
                      (enqueue_all sample_calls empty_world)).2) = [].
Proof.
  destruct (enqueued_writes_reach_the_server path_part sample_calls always_ok empty_world)
    as (_ & _ & H).
  - reflexivity.
  - intros n. exists 200%Z. split; [reflexivity|lia].
  - exact H.
Defined.

Lemma processQueue_empty_queue_reads_only_witness :
  (processQueue path_part sample_net empty_world).2 =
  mkWorld (Some true) (LsHolds None) ∅ [EvLoad].
Proof.
  rewrite (processQueue_empty_queue_reads_only path_part sample_net empty_world);
    reflexivity.
Defined.

Lemma processQueue_requests_each_item_once_witness :
  length (fetches (trace (processQueue path_part sample_net sample_world).2)) = 7.
Proof.
  destruct (processQueue_requests_each_item_once path_part sample_net sample_world)
    as (_ & H).
  - reflexivity.
  - rewrite drop_0 in H. rewrite H. vm_compute. reflexivity.
Defined.

Lemma requests_carry_sync_marker_witness :
  rq_headers (request_of (sample_item "a" "/api/users/1" 0)) !! "X-Offline-Sync" =
  Some "true".
Proof.
  destruct (requests_carry_sync_marker path_part sample_net sample_world
              (request_of (sample_item "a" "/api/users/1" 0)) "Authorization")
    as (item & _ & _ & _ & _ & H & _).
  - apply list_elem_of_In. vm_compute. left. reflexivity.
  - exact H.
Defined.

Lemma survivors_keep_queue_order_witness :
  length (loadQueue (store (processQueue path_part sample_net sample_world).2)) <= 7.
Proof.
  destruct (survivors_keep_queue_order path_part sample_net sample_world)
    as (l & _ & -> & H & _).
  - reflexivity.
  - rewrite length_fmap. exact H.
Defined.

Lemma persisted_retry_counts_stay_below_cap_witness :
  (1000 <= backoffTime (retryCount (sample_item "d" "/api/users/2?full=1" 3)) <= 16000)%Z.
Proof.
  apply (persisted_retry_counts_stay_below_cap path_part sample_net sample_world).
  - reflexivity.
  - assert (loadQueue (store sample_world) = sample_queue) as -> by reflexivity.
    apply Forall_forall. unfold sample_queue. repeat constructor; cbn; lia.
  - apply list_elem_of_In. vm_compute. left. reflexivity.
Defined.

Lemma backoff_is_monotone_and_capped_witness :
  (backoffTime 2 <= backoffTime 7)%Z.
Proof. apply (backoff_is_monotone_and_capped 2 7). lia. Defined.

Lemma queue_drains_within_six_passes_witness :
  loadQueue (store (sync_rounds path_part (replicate 6 always_throws) fresh_world)) = [].
Proof.
  apply (queue_drains_within_six_passes path_part (replicate 6 always_throws) fresh_world).
  - reflexivity.
  - assert (loadQueue (store fresh_world) = [sample_item "a" "/api/users/1" 0]) as ->
      by reflexivity.
    apply Forall_forall. repeat constructor; cbn; lia.
  - cbn. lia.
Defined.

Lemma other_statuses_are_retried_witness :
  (attempt path_part not_modified (sample_item "a" "/api/users/1" 0)
     (start_pass fresh_world)).1 =
  (sample_item "a" "/api/users/1" 1, Some (sample_item "a" "/api/users/1" 1)).
Proof.
  destruct (other_statuses_are_retried path_part not_modified
              (sample_item "a" "/api/users/1" 0) (start_pass fresh_world) 304)
    as (H & _).
  - reflexivity.
  - lia.
  - lia.
  - exact H.
Defined.

Lemma pass_without_success_keeps_cache_witness :
  store (processQueue path_part always_throws sample_world).2
    !! "offline_cache_v1:GET:/api/users:t=anon" = Some (SCache 1 "[]").
Proof.
  destruct (pass_without_success_keeps_cache path_part always_throws sample_world)
    as (_ & H & _).
  - reflexivity.
  - vm_compute. discriminate.
  - intros n status. discriminate.
  - rewrite H by discriminate. reflexivity.
Defined.

Lemma pass_only_removes_cache_entries_witness :
  store (processQueue path_part sample_net sample_world).2 !! "theme" =
  store sample_world !! "theme"
  \/ (store (processQueue path_part sample_net sample_world).2 !! "theme" = None
      /\ startsWith "theme" CACHE_PREFIX = true).
Proof.
  apply (pass_only_removes_cache_entries path_part sample_net sample_world "theme").
  discriminate.
Defined.

Lemma success_invalidates_reads_of_every_session_witness :
  getCached (store (processQueue path_part sample_net sample_world).2)
    (cacheKeyFor (LsHolds (Some token_alice)) "/api/users?page=2") = None.
Proof.
  apply (success_invalidates_reads_of_every_session path_part sample_net sample_world
           0 (sample_item "a" "/api/users/1" 0) 200 "users").
  - reflexivity.
  - reflexivity.
  - reflexivity.
  - lia.
  - reflexivity.
  - reflexivity.
Defined.

Lemma resource_type_inside_prefix_clears_cache_witness :
  store (processQueue path_part always_ok versioned_world).2
    !! "offline_cache_v1:GET:/api/accounts:t=anon" = None.
Proof.
  apply (resource_type_inside_prefix_clears_cache path_part always_ok versioned_world
           0 (sample_item "v" "/api/v1/users" 0) 200 "v1").
  - reflexivity.
  - reflexivity.
  - reflexivity.
  - lia.
  - reflexivity.
  - reflexivity.
  - reflexivity.
Defined.

Lemma resourceType_is_a_segment_of_the_path_witness :
  includes "/api/users/1" "users" = true.
Proof.
  destruct (resourceType_is_a_segment_of_the_path "/api/users/1" "users") as (_ & _ & H).
  - reflexivity.
  - exact H.
Defined.

Lemma scheduler_guard_allows_one_pass_per_closure_witness :
  pending (mkClosure true 1) <= 1.
Proof.
  destruct (scheduler_guard_allows_one_pass_per_closure
              [Start; OfflineEvent; OnlineEvent; OnlineEvent] 0 (mkClosure true 1))
    as (H & _).
  - reflexivity.
  - exact H.
Defined.

Lemma scheduler_launches_nothing_when_stopped_witness :
  launched (step (run [Start; Stop]) OnlineEvent) = [Direct].
Proof.
  destruct (scheduler_launches_nothing_when_stopped [Start; Stop] OnlineEvent)
    as (H & _).
  - reflexivity.
  - discriminate.
  - rewrite H. reflexivity.
Defined.

Lemma scheduler_launches_no_guarded_pass_offline_witness :
  List.filter is_guarded (launched (step (run [Start; OfflineEvent]) (Tick 0))) = [].
Proof.
  rewrite (scheduler_launches_no_guarded_pass_offline (run [Start; OfflineEvent]) (Tick 0));
    reflexivity.
Defined.

(** The scheduler on a sample run: the second 'online' event finds the
    pass of the first still awaited, and the restart creates a closure of
    its own. *)
Example sample_scheduler_run :
  launched (run [Start; OnlineEvent; OnlineEvent; Settled 0; Tick 0; Stop;
                 Tick 0; OnlineEvent; Start; OnlineEvent]) =
  [Direct; Guarded 0; Guarded 0; Direct; Guarded 1].
Proof. reflexivity. Qed.
